(** * aapt2 compile phase (tools/aapt2/compile/Compile.cpp)

    A shallow embedding of the resource compiler's front end: the path
    classifier [extractResourcePathData], the entry-name builder
    [buildIntermediateFilename], the four per-file compilers
    ([compileTable], [compileXml], [compilePng], [compileFile]), the envelope
    writers and the driver [compile].

    Strings are [string], file contents and archive bodies are [list byte],
    C++ functions returning [bool] while mutating the archive writer and the
    diagnostics sink are functions in a small state-and-failure monad over
    [World].  The libraries the file calls into (XML parser and flattener, PNG
    codec, protocol-buffer serializer, configuration parser, flag parser) are
    the fields of the class [Toolchain]. *)

From Stdlib Require Import ZArith Strings.Ascii Strings.Byte.
From stdpp Require Import base option list strings pretty.

Local Open Scope Z_scope.

(** ** std::string and StringPiece primitives *)

Module Str.

(** [std::string::find(char)]: index of the first occurrence, [None] for
    [npos]. *)
Fixpoint find_char (c : ascii) (s : string) : option nat :=
  match s with
  | EmptyString => None
  | String d s' => if decide (d = c) then Some 0%nat else S <$> find_char c s'
  end.

Fixpoint starts_with (p s : string) : bool :=
  match p, s with
  | EmptyString, _ => true
  | String a p', String b s' => bool_decide (a = b) && starts_with p' s'
  | String _ _, EmptyString => false
  end.

(** [std::string::find(const char* )]: index of the first position at which
    the pattern occurs, [None] for [npos]. *)
Fixpoint find (p s : string) : option nat :=
  if starts_with p s then Some 0%nat
  else match s with
       | EmptyString => None
       | String _ s' => S <$> find p s'
       end.

Fixpoint drop (n : nat) (s : string) : string :=
  match n, s with
  | O, _ => s
  | S n', String _ s' => drop n' s'
  | S _, EmptyString => EmptyString
  end.

Fixpoint take (n : nat) (s : string) : string :=
  match n, s with
  | S n', String c s' => String c (take n' s')
  | _, _ => EmptyString
  end.

(** Modelled from the spec: [StringPiece::substr] (util/StringPiece.h) is not
    among the sources.  The classifier uses it to "split once on the first"
    dash or dot: "left" is the piece of the given length from the start,
    "right" the piece after the separator.  A range that does not fit in the
    string yields the empty piece. *)
Definition substr (start len : nat) (s : string) : string :=
  if decide (start + len ≤ String.length s)%nat then take len (drop start s)
  else EmptyString.

(** Modelled from the spec: [util::split] (util/Util.h) is not among the
    sources.  "Split into path components": the pieces between consecutive
    occurrences of the separator, empty pieces included, so a string with n
    separators has n + 1 components. *)
Fixpoint split (sep : ascii) (s : string) : list string :=
  match s with
  | EmptyString => [EmptyString]
  | String c s' =>
      if decide (c = sep) then EmptyString :: split sep s'
      else match split sep s' with
           | p :: ps => String c p :: ps
           | [] => [String c EmptyString]
           end
  end.

(** "The string contains the literal substring p." *)
Definition contains (p s : string) : Prop :=
  ∃ pre post, s = pre +:+ p +:+ post.

Definition has_char (c : ascii) (s : string) : Prop :=
  ∃ pre post, s = pre +:+ String c post.

End Str.

(** Modelled from the spec: [file::sDirSep] (util/Files.h) is not among the
    sources; it is "the platform directory separator", a slash in every path
    the specification shows. *)
Definition sDirSep : ascii := "/"%char.

(** ** Data model *)

(** [Source] (Source.h): the path a diagnostic refers to, with an optional
    line. *)
Record Source := mkSource { path : string; line : option Z }.

Definition Source_of_path (p : string) : Source := mkSource p None.

Definition Source_show (s : Source) : string :=
  match line s with
  | Some l => path s +:+ ":" +:+ pretty l
  | None => path s
  end.

(** Modelled from the spec: the declaration of [Image] (compile/Image.h) is not
    among the sources.  It is "an RGBA raster" reached through a "row-pointer
    array": [rows] holds, for each row, the address of its first byte in the
    pixel memory [data]; a row is [4 * width] bytes. *)
Record Image := mkImage {
  width : Z;
  height : Z;
  rows : list nat;
  data : list byte
}.

Record XmlFlattenerOptions := { keepRawValues : bool }.

Record ResourceParserOptions := {
  errorOnPositionalArguments : bool;
  translatable : bool
}.

(** [CompileContext]: the only state of its own is the verbose switch; the
    compilation package is the empty string and the package id is zero. *)
Record CompileContext := { mVerbose : bool }.

Definition verbose (context : CompileContext) : bool := mVerbose context.
Definition getCompilationPackage (context : CompileContext) : string := "".
Definition getPackageId (context : CompileContext) : Z := 0.

Record CompileOptions := {
  outputPath : string;
  resDir : option string;
  pseudolocalize : bool;
  legacyMode : bool;
  options_verbose : bool
}.

(** What [Flags::parse] leaves behind: the values of the variables the flags
    are bound to and the positional arguments.  The [-v] switch is bound to a
    local of [compile], not to the [verbose] field of the option block, which
    keeps its initial value. *)
Record ParsedFlags := {
  flag_o : string;
  flag_dir : option string;
  flag_pseudo_localize : bool;
  flag_legacy : bool;
  flag_v : bool;
  flag_args : list string
}.

Definition flag_options (flags : ParsedFlags) : CompileOptions :=
  {| outputPath := flag_o flags;
     resDir := flag_dir flags;
     pseudolocalize := flag_pseudo_localize flags;
     legacyMode := flag_legacy flags;
     options_verbose := false |}.

Definition flag_verbose (flags : ParsedFlags) : bool := flag_v flags.

(** ** The libraries behind the compile phase

    One field per type or entry point of a collaborator that
    Compile.cpp uses and that is declared elsewhere.  Entry points that
    report failure by returning [false] or a null pointer return [None] here;
    the diagnostics they print on their own are not part of the model. *)
Class Toolchain := {
  (* ConfigDescription.h *)
  ConfigDescription : Type;
  ConfigDescription_default : ConfigDescription;
  ConfigDescription_parse : string → option ConfigDescription;
  (* Resource.h *)
  ResourceType : Type;
  ResourceType_eq_dec :: EqDecision ResourceType;
  kRaw : ResourceType;
  parseResourceType : string → option ResourceType;
  (* ResourceTable.h, ResourceParser.h, compile/PseudolocaleGenerator.h *)
  ResourceTableTypes : Type;
  ResourceTableTypes_empty : ResourceTableTypes;
  StringPool : Type;
  (* xml/XmlDom.h and the XML passes *)
  XmlElement : Type;
  ExportedSymbols : Type;
  ExportedSymbols_empty : ExportedSymbols;
  (* compile/Png.h *)
  NinePatch : Type;
  NinePatch_create : Image → string + NinePatch;
  NinePatch_show : NinePatch → string;
  PngChunkFilter : Type;
  PngChunkFilter_new : list byte → PngChunkFilter;
  PngChunkFilter_ByteCount : PngChunkFilter → Z;
  readPng : CompileContext → PngChunkFilter → option Image * PngChunkFilter;
  writePng : CompileContext → Image → option NinePatch → option (list byte);
  io_copy : PngChunkFilter → list byte;
  (* proto/ProtoSerialize.h *)
  pb_ResourceTable : Type;
  pb_CompiledFile : Type;
  SerializeToZeroCopyStream : pb_ResourceTable → list byte;
  WriteCompiledFile_bytes : pb_CompiledFile → list byte;
  WriteData_bytes : list byte → list byte;
  (* util/Files.h *)
  file_appendPath : string → string → string;
  (* Flags.h *)
  Flags_parse : list string → option ParsedFlags
}.

Section DataModel.
Context `{Toolchain}.

Record ResourcePathData := mkResourcePathData {
  source : Source;
  resourceDir : string;
  name : string;
  extension : string;
  (* Original config str, kept so that the output name is computed from
     the input as it was given. *)
  configStr : string;
  config : ConfigDescription
}.

Record ResourceName := mkResourceName {
  rn_package : string;
  rn_type : ResourceType;
  rn_entry : string
}.

Record ResourceFile := mkResourceFile {
  rf_name : ResourceName;
  rf_config : ConfigDescription;
  rf_source : Source;
  rf_exportedSymbols : ExportedSymbols
}.

Record ResourceTablePackage := mkPackage {
  pkg_name : string;
  pkg_id : option Z;
  pkg_types : ResourceTableTypes
}.

Record ResourceTable := mkTable {
  stringPool : StringPool;
  packages : list ResourceTablePackage
}.

Record XmlResource := mkXmlResource {
  xml_file : ResourceFile;
  xml_root : XmlElement
}.

End DataModel.

(** The entry points of the collaborators that take or return the records
    above. *)
Class Passes `{Toolchain} := {
  StringPool_empty : StringPool;
  ResourceParser_parse :
    ResourceParserOptions → Source → ConfigDescription → ResourceTable →
    list byte → option ResourceTable;
  PseudolocaleGenerator_consume :
    CompileContext → ResourceTable → option ResourceTable;
  serializeTableToPb : ResourceTable → pb_ResourceTable;
  serializeCompiledFileToPb : ResourceFile → pb_CompiledFile;
  xml_inflate : list byte → Source → option XmlResource;
  XmlIdCollector_consume : CompileContext → XmlResource → option XmlResource;
  InlineXmlFormatParser_consume :
    CompileContext → XmlResource → option (XmlResource * list XmlResource);
  XmlFlattener_consume :
    XmlFlattenerOptions → CompileContext → XmlResource → option (list byte)
}.

(** ** Path classifier and entry names *)

Section PathClassifier.
Context `{Toolchain}.

(** Resource file paths are expected to look like
    [--/res/]type[-config]/name.  The result is the descriptor, or the text
    the source stores through [outError]. *)
Definition extractResourcePathData (path : string)
  : string + ResourcePathData :=
  let parts := Str.split sDirSep path in
  if decide (length parts < 2)%nat then inl "bad resource path"
  else
    let dir := parts !!! (length parts - 2)%nat in
    let dirConfig : string + (string * string * ConfigDescription) :=
      match Str.find_char "-" dir with
      | Some dashPos =>
          let configStr :=
            Str.substr (dashPos + 1)
                       (String.length dir - (dashPos + 1)) dir in
          match ConfigDescription_parse configStr with
          | None => inl ("invalid configuration '" +:+ configStr +:+ "'")
          | Some config => inr (Str.substr 0 dashPos dir, configStr, config)
          end
      | None => inr (dir, "", ConfigDescription_default)
      end in
    match dirConfig with
    | inl err => inl err
    | inr (dirStr, configStr, config) =>
        let filename := parts !!! (length parts - 1)%nat in
        let '(name, extension) :=
          match Str.find_char "." filename with
          | Some dotPos =>
              (Str.substr 0 dotPos filename,
               Str.substr (dotPos + 1)
                          (String.length filename - (dotPos + 1)) filename)
          | None => (filename, "")
          end in
        inr (mkResourcePathData (Source_of_path path) dirStr name extension
                                configStr config)
    end.

(** The two halves of the classifier, named for the statements about it:
    what it derives from the directory token and from the filename. *)
Definition dir_parts (dir : string) : string + (string * string * ConfigDescription) :=
  match Str.find_char "-" dir with
  | Some dashPos =>
      let configStr :=
        Str.substr (dashPos + 1) (String.length dir - (dashPos + 1)) dir in
      match ConfigDescription_parse configStr with
      | None => inl ("invalid configuration '" +:+ configStr +:+ "'")
      | Some config => inr (Str.substr 0 dashPos dir, configStr, config)
      end
  | None => inr (dir, "", ConfigDescription_default)
  end.

Definition file_parts (filename : string) : string * string :=
  match Str.find_char "." filename with
  | Some dotPos =>
      (Str.substr 0 dotPos filename,
       Str.substr (dotPos + 1) (String.length filename - (dotPos + 1)) filename)
  | None => (filename, "")
  end.

Definition buildIntermediateFilename (data : ResourcePathData) : string :=
  let out := resourceDir data in
  let out :=
    if decide (configStr data = "") then out
    else out +:+ "-" +:+ configStr data in
  let out := out +:+ "_" +:+ name data in
  let out :=
    if decide (extension data = "") then out
    else out +:+ "." +:+ extension data in
  out +:+ ".flat".

Definition isHidden (filename : string) : bool :=
  Str.starts_with "." filename.

(** The descriptor the driver hands to the values compiler: the extension
    is overwritten. *)
Definition with_extension (ext : string) (data : ResourcePathData)
  : ResourcePathData :=
  mkResourcePathData (source data) (resourceDir data) (name data) ext
                     (configStr data) (config data).

End PathClassifier.

(** ** Fixed-width integers and byte buffers *)

Global Instance byte_eq_dec : EqDecision byte := Byte.byte_eq_dec.

Definition uint32 (v : Z) : Z := v mod 2 ^ 32.

Definition byte_of_Z (v : Z) : byte :=
  default Byte.x00 (Byte.of_N (Z.to_N (Z.land v 255))).

Definition Z_of_byte (b : byte) : Z := Z.of_N (Byte.to_N b).

(** The four bytes [WriteLittleEndian32] emits for a [uint32_t]. *)
Definition le32 (v : Z) : list byte :=
  [byte_of_Z v; byte_of_Z (Z.shiftr v 8);
   byte_of_Z (Z.shiftr v 16); byte_of_Z (Z.shiftr v 24)].

(** Reading such a field back, as the consumer of the format does. *)
Definition read_le32 (bs : list byte) : option Z :=
  match bs with
  | b0 :: b1 :: b2 :: b3 :: _ =>
      Some (Z.lor (Z_of_byte b0)
             (Z.lor (Z.shiftl (Z_of_byte b1) 8)
               (Z.lor (Z.shiftl (Z_of_byte b2) 16)
                      (Z.shiftl (Z_of_byte b3) 24))))
  | _ => None
  end.

(** [memmove(base + dst, base + src, n)] on an array held as a list of its
    elements: the [n] elements from index [src] are copied to index [dst], the
    two ranges may overlap.  The source leaves a copy that runs outside the
    array (or a negative count, which the conversion to [size_t] turns into a
    huge one) undefined: [None]. *)
Definition memmove {A} (dst src : nat) (n : Z) (l : list A) : option (list A) :=
  if decide (0 ≤ n ∧ (src + Z.to_nat n ≤ length l)%nat
             ∧ (dst + Z.to_nat n ≤ length l)%nat)
  then Some (list_inserts dst (take (Z.to_nat n) (drop src l)) l)
  else None.

(** ** Diagnostics, file system, archive writer *)

Inductive Level := Note | Warn | Error.

Record DiagMessage := mkDiag {
  dm_level : Level;
  dm_source : option Source;
  dm_message : string
}.

Inductive ArchiveKind := ZipFileArchive | DirectoryArchive.

(** Modelled from the spec: [IArchiveWriter] and its two implementations
    (flatten/Archive.h) are not among the sources.  An "archive entry" is "a
    named slot"; "entries are written strictly sequentially: at most one entry
    is open at a time"; an [ArchiveError] is a "start-entry, write, or
    finish-entry failure".  The writer is held in memory: the finished entries
    in the order they were sealed, the entry being written, and what makes the
    container fail (names it cannot open, bytes it still has room for). *)
Record ArchiveWriter := mkWriter {
  aw_kind : ArchiveKind;
  entries : list (string * list byte);
  current : option (string * list byte);
  refuses : string → bool;
  room : nat
}.

Definition startEntry (p : string) (flags : Z) (w : ArchiveWriter)
  : bool * ArchiveWriter :=
  match current w with
  | Some _ => (false, w)
  | None =>
      if refuses w p then (false, w)
      else (true, mkWriter (aw_kind w) (entries w) (Some (p, [])) (refuses w)
                           (room w))
  end.

Definition writeEntry (bs : list byte) (w : ArchiveWriter)
  : bool * ArchiveWriter :=
  match current w with
  | None => (false, w)
  | Some (p, body) =>
      if decide (length bs ≤ room w)%nat
      then (true, mkWriter (aw_kind w) (entries w) (Some (p, body ++ bs))
                           (refuses w) (room w - length bs))
      else (false, w)
  end.

Definition finishEntry (w : ArchiveWriter) : bool * ArchiveWriter :=
  match current w with
  | None => (false, w)
  | Some e =>
      (true, mkWriter (aw_kind w) (entries w ++ [e]) None (refuses w) (room w))
  end.

(** The part of the machine the compile phase reads: file contents (or the
    text of the system error), directory listings, which paths are
    directories, and which output paths a container can be created at. *)
Record FileSystem := {
  fs_read : string → string + list byte;
  fs_readdir : string → string + list string;
  fs_isDirectory : string → bool;
  fs_container : ArchiveKind → string → option ((string → bool) * nat)
}.

(** Modelled from the spec: [createZipFileArchiveWriter] and
    [createDirectoryArchiveWriter] (flatten/Archive.h) are not among the
    sources; each opens "a container (directory or archive)" with no entry
    written, or fails. *)
Definition createArchiveWriter (kind : ArchiveKind) (fs : FileSystem)
    (out : string) : option ArchiveWriter :=
  '(refuses, room) ← fs_container fs kind out;
  Some (mkWriter kind [] None refuses room).

Definition createZipFileArchiveWriter := createArchiveWriter ZipFileArchive.
Definition createDirectoryArchiveWriter := createArchiveWriter DirectoryArchive.

Record World := mkWorld {
  fs : FileSystem;
  writer : ArchiveWriter;
  diagnostics : list DiagMessage
}.

(** ** The monad of the per-file compilers

    A C++ function [bool f(...)] that writes through [writer] and reports
    through [context->getDiagnostics()] is an [M unit]: [None] is
    [return false], and the world it leaves is the one at that return. *)
Definition M (A : Type) : Type := World → option A * World.

Global Instance M_ret : MRet M := λ A a w, (Some a, w).
Global Instance M_bind : MBind M := λ A B k m w,
  match m w with
  | (Some a, w') => k a w'
  | (None, w') => (None, w')
  end.

Definition fail {A} : M A := λ w, (None, w).

Definition lift {A} (o : option A) : M A := λ w, (o, w).

Definition report (l : Level) (src : option Source) (msg : string) : M unit :=
  λ w, (Some (), mkWorld (fs w) (writer w)
                         (diagnostics w ++ [mkDiag l src msg])).

Definition error := report Error.
Definition note := report Note.

Definition when (b : bool) (m : M unit) : M unit := if b then m else mret ().

(** [if (!ok) { error(...); return false; }] *)
Definition require (ok : bool) (src : option Source) (msg : string) : M unit :=
  if ok then mret () else error src msg ≫= λ _, fail.

Definition on_writer (f : ArchiveWriter → bool * ArchiveWriter) : M bool :=
  λ w, let '(ok, wr) := f (writer w) in
       (Some ok, mkWorld (fs w) wr (diagnostics w)).

(** Opening and reading an input; the failure carries the system's text. *)
Definition readInput (src : Source) : M (list byte) :=
  λ w, match fs_read (fs w) (path src) with
       | inr content => (Some content, w)
       | inl err => (error (Some src) err ≫= λ _, fail) w
       end.

(** ** CompiledFileOutputStream over the archive writer

    The stream remembers only whether a write has failed; once it has, later
    writes are dropped.  The buffering adaptor between the stream and the
    writer is flushed when its scope ends, which in every function below is
    before [finishEntry]; the model writes through. *)
Section OutputStream.
Context `{Toolchain}.

Definition out_write (bs : list byte) (hadError : bool) : M bool :=
  if hadError then mret true
  else ok ← on_writer (writeEntry bs); mret (negb ok).

Definition WriteLittleEndian32 (v : Z) : bool → M bool :=
  out_write (le32 (uint32 v)).

Definition WriteCompiledFile (f : pb_CompiledFile) : bool → M bool :=
  out_write (WriteCompiledFile_bytes f).

Definition WriteData (buffer : list byte) : bool → M bool :=
  out_write (WriteData_bytes buffer).

End OutputStream.

(** The legacy PNG cruncher ([Png::process]), which the PNG compiler only
    consults for a size comparison in verbose runs. *)
Class LegacyPng := {
  Png_process : Source → list byte → option (list byte)
}.

(** ** The per-file compilers *)

Section Compilers.
Context `{Passes} `{LegacyPng}.

(** Modelled from the spec: [ResourceTable::createPackage]
    (ResourceTable.h) is not among the sources.  "Ensure the compilation
    package ... exists in the table": a table that has a package of that
    name is unchanged, otherwise an empty package with no id is added. *)
Definition createPackage (pkg : string) (table : ResourceTable)
  : ResourceTable :=
  if existsb (λ p, bool_decide (pkg_name p = pkg)) (packages table)
  then table
  else mkTable (stringPool table)
               (packages table ++ [mkPackage pkg None ResourceTableTypes_empty]).

(** Assign an ID to any package that has none. *)
Definition assignPackageIds (context : CompileContext) (table : ResourceTable)
  : ResourceTable :=
  mkTable (stringPool table)
    ((λ pkg, match pkg_id pkg with
             | Some _ => pkg
             | None => mkPackage (pkg_name pkg) (Some (getPackageId context))
                                 (pkg_types pkg)
             end) <$> packages table).

Definition parserOptions_of (options : CompileOptions)
    (pathData : ResourcePathData) : ResourceParserOptions :=
  {| errorOnPositionalArguments := negb (legacyMode options);
     (* If the filename includes donottranslate, then the default
        translatable is false. *)
     translatable :=
       bool_decide (Str.find "donottranslate" (name pathData) = None) |}.

Definition compileTable (context : CompileContext) (options : CompileOptions)
    (pathData : ResourcePathData) (outputPath : string) : M unit :=
  let table := mkTable StringPool_empty [] in
  fin ← readInput (source pathData);
  (* Parse the values file from XML. *)
  table ← lift (ResourceParser_parse (parserOptions_of options pathData)
                  (source pathData) (config pathData) table fin);
  table ← (if pseudolocalize options
           then lift (PseudolocaleGenerator_consume context table)
           else mret table);
  (* Ensure we have the compilation package at least. *)
  let table := createPackage (getCompilationPackage context) table in
  let table := assignPackageIds context table in
  (* Create the file/zip entry. *)
  ok ← on_writer (startEntry outputPath 0);
  require ok (Some (Source_of_path outputPath)) "failed to open";;
  let pbTable := serializeTableToPb table in
  ok ← on_writer (writeEntry (SerializeToZeroCopyStream pbTable));
  require ok (Some (Source_of_path outputPath)) "failed to write";;
  ok ← on_writer finishEntry;
  require ok (Some (Source_of_path outputPath)) "failed to finish entry".

Definition writeHeaderAndBufferToWriter (outputPath : string)
    (file : ResourceFile) (buffer : list byte) : M unit :=
  (* Start the entry so we can write the header. *)
  ok ← on_writer (startEntry outputPath 0);
  require ok (Some (Source_of_path outputPath)) "failed to open file";;
  (* Number of CompiledFiles. *)
  e ← WriteLittleEndian32 1 false;
  e ← WriteCompiledFile (serializeCompiledFileToPb file) e;
  e ← WriteData buffer e;
  require (negb e) (Some (Source_of_path outputPath)) "failed to write data";;
  ok ← on_writer finishEntry;
  require ok (Some (Source_of_path outputPath)) "failed to finish writing data".

Definition writeHeaderAndMmapToWriter (outputPath : string)
    (file : ResourceFile) (map : list byte) : M unit :=
  (* Start the entry so we can write the header. *)
  ok ← on_writer (startEntry outputPath 0);
  require ok (Some (Source_of_path outputPath)) "failed to open file";;
  (* Number of CompiledFiles. *)
  e ← WriteLittleEndian32 1 false;
  e ← WriteCompiledFile (serializeCompiledFileToPb file) e;
  e ← WriteData map e;
  require (negb e) (Some (Source_of_path outputPath)) "failed to write data";;
  ok ← on_writer finishEntry;
  require ok (Some (Source_of_path outputPath)) "failed to finish writing data".

(** The stream is passed by pointer in the source; here its error flag goes
    in and comes out. *)
Definition flattenXmlToOutStream (context : CompileContext)
    (outputPath : string) (xmlRes : XmlResource) (out : bool) : M bool :=
  buffer ← lift (XmlFlattener_consume {| keepRawValues := true |}
                   context xmlRes);
  out ← WriteCompiledFile (serializeCompiledFileToPb (xml_file xmlRes)) out;
  out ← WriteData buffer out;
  require (negb out) (Some (Source_of_path outputPath))
          "failed to write data";;
  mret out.

Fixpoint flattenInlineDocuments (context : CompileContext)
    (outputPath : string) (inlineDocuments : list XmlResource) (out : bool)
  : M bool :=
  match inlineDocuments with
  | [] => mret out
  | inlineXmlDoc :: rest =>
      out ← flattenXmlToOutStream context outputPath inlineXmlDoc out;
      flattenInlineDocuments context outputPath rest out
  end.

(** [*parseResourceType(pathData.resourceDir)]: the source dereferences the
    lookup without a test, which is undefined for a directory that names no
    resource type; the driver only calls the three compilers below after the
    same lookup has succeeded.  The model stops the input there. *)
Definition resourceTypeOf (pathData : ResourcePathData) : M ResourceType :=
  lift (parseResourceType (resourceDir pathData)).

Definition resourceFileOf (type : ResourceType) (pathData : ResourcePathData)
    (symbols : ExportedSymbols) : ResourceFile :=
  mkResourceFile (mkResourceName "" type (name pathData))
                 (config pathData) (source pathData) symbols.

Definition compileXml (context : CompileContext) (options : CompileOptions)
    (pathData : ResourcePathData) (outputPath : string) : M unit :=
  when (verbose context) (note (Some (source pathData)) "compiling XML");;
  fin ← readInput (source pathData);
  xmlRes ← lift (xml_inflate fin (source pathData));
  type ← resourceTypeOf pathData;
  let xmlRes :=
    mkXmlResource
      (resourceFileOf type pathData (rf_exportedSymbols (xml_file xmlRes)))
      (xml_root xmlRes) in
  (* Collect IDs that are defined here. *)
  xmlRes ← lift (XmlIdCollector_consume context xmlRes);
  (* Look for and process any <aapt:attr> tags and create sub-documents. *)
  '(xmlRes, inlineDocuments) ←
    lift (InlineXmlFormatParser_consume context xmlRes);
  (* Start the entry so we can write the header. *)
  ok ← on_writer (startEntry outputPath 0);
  require ok (Some (Source_of_path outputPath)) "failed to open file";;
  (* Number of CompiledFiles. *)
  out ← WriteLittleEndian32 (1 + Z.of_nat (length inlineDocuments)) false;
  out ← flattenXmlToOutStream context outputPath xmlRes out;
  out ← flattenInlineDocuments context outputPath inlineDocuments out;
  ok ← on_writer finishEntry;
  require ok (Some (Source_of_path outputPath)) "failed to finish writing data".

(** Remove the 1px border around the NinePatch: the row array is shifted up
    by 1 and the length is treated as height - 2; each row is shifted to the
    left by 1 pixel and its length treated as width - 2.  (The dimensions
    are [int32_t]; those of a decoded image are not negative, so the
    subtractions do not overflow.) *)
Fixpoint shiftRows (rows : list nat) (width : Z) (hs : list nat)
    (data : list byte) : option (list byte) :=
  match hs with
  | [] => Some data
  | h :: hs' =>
      row ← rows !! h;
      data ← memmove row (row + 4) (width * 4) data;
      shiftRows rows width hs' data
  end.

Definition removeBorder (image : Image) : option Image :=
  let width := width image - 2 in
  let height := height image - 2 in
  rows ← memmove 0 1 height (rows image);
  data ← shiftRows rows width (seq 0 (Z.to_nat height)) (data image);
  Some (mkImage width height rows data).

Definition compilePng (context : CompileContext) (options : CompileOptions)
    (pathData : ResourcePathData) (outputPath : string) : M unit :=
  when (verbose context) (note (Some (source pathData)) "compiling PNG");;
  type ← resourceTypeOf pathData;
  let resFile := resourceFileOf type pathData ExportedSymbols_empty in
  content ← readInput (source pathData);
  (* Ensure that we only keep the chunks we care about if we end up
     using the original PNG instead of the crunched one. *)
  let pngChunkFilter := PngChunkFilter_new content in
  let '(image, pngChunkFilter) := readPng context pngChunkFilter in
  image ← lift image;
  '(image, ninePatch) ←
    (if decide (extension pathData = "9.png") then
       match NinePatch_create image with
       | inl err => error None err ≫= λ _, fail
       | inr ninePatch =>
           image ← lift (removeBorder image);
           when (verbose context)
                (note (Some (source pathData))
                      ("9-patch: " +:+ NinePatch_show ninePatch));;
           mret (image, Some ninePatch)
       end
     else mret (image, None));
  (* Write the crunched PNG. *)
  crunchedPngBuffer ← lift (writePng context image ninePatch);
  buffer ←
    (if bool_decide (is_Some ninePatch)
        || bool_decide (Z.of_nat (length crunchedPngBuffer)
                        ≤ PngChunkFilter_ByteCount pngChunkFilter)
     then
       (* No matter what, we must use the re-encoded PNG, even if it is
          larger.  9-patch images must be re-encoded since their borders
          are stripped. *)
       mret crunchedPngBuffer
     else
       (* The re-encoded PNG is larger than the original, and there is
          no mandatory transformation.  Use the original. *)
       when (verbose context)
            (note (Some (source pathData))
                  "original PNG is smaller than crunched PNG, using original");;
       let pngChunkFilterAgain := PngChunkFilter_new content in
       mret (io_copy pngChunkFilterAgain));
  (if verbose context then
     (* For debugging only, use the legacy PNG cruncher and compare the
        resulting file sizes. *)
     legacyBuffer ← lift (Png_process (source pathData) content);
     note (Some (source pathData))
          ("legacy=" +:+ pretty (length legacyBuffer)
           +:+ " new=" +:+ pretty (length buffer))
   else mret ());;
  writeHeaderAndBufferToWriter outputPath resFile buffer.

Definition compileFile (context : CompileContext) (options : CompileOptions)
    (pathData : ResourcePathData) (outputPath : string) : M unit :=
  when (verbose context) (note (Some (source pathData)) "compiling file");;
  type ← resourceTypeOf pathData;
  let resFile := resourceFileOf type pathData ExportedSymbols_empty in
  f ← readInput (source pathData);
  writeHeaderAndMmapToWriter outputPath resFile f.

End Compilers.

(** ** Input enumeration and the driver *)

Section Driver.
Context `{Passes} `{LegacyPng}.

Fixpoint loadLeafEntries (prefixPath : string) (leaves : list string)
    (outPathData : list ResourcePathData)
  : DiagMessage + list ResourcePathData :=
  match leaves with
  | [] => inr outPathData
  | leafEntry :: rest =>
      if isHidden leafEntry then loadLeafEntries prefixPath rest outPathData
      else
        let fullPath := file_appendPath prefixPath leafEntry in
        match extractResourcePathData fullPath with
        | inl errStr => inl (mkDiag Error None errStr)
        | inr pathData =>
            loadLeafEntries prefixPath rest (outPathData ++ [pathData])
        end
  end.

Fixpoint loadDirEntries (fs : FileSystem) (rootDir : string)
    (dirEntries : list string) (outPathData : list ResourcePathData)
  : DiagMessage + list ResourcePathData :=
  match dirEntries with
  | [] => inr outPathData
  | entry :: rest =>
      if isHidden entry then loadDirEntries fs rootDir rest outPathData
      else
        let prefixPath := file_appendPath rootDir entry in
        if negb (fs_isDirectory fs prefixPath)
        then loadDirEntries fs rootDir rest outPathData
        else
          match fs_readdir fs prefixPath with
          | inl err => inl (mkDiag Error None err)
          | inr leaves =>
              match loadLeafEntries prefixPath leaves outPathData with
              | inl d => inl d
              | inr outPathData =>
                  loadDirEntries fs rootDir rest outPathData
              end
          end
  end.

(** Walks the res directory structure, looking for resource files. *)
Definition loadInputFilesFromDir (fs : FileSystem) (options : CompileOptions)
  : DiagMessage + list ResourcePathData :=
  let rootDir := default "" (resDir options) in
  match fs_readdir fs rootDir with
  | inl err => inl (mkDiag Error None err)
  | inr dirEntries => loadDirEntries fs rootDir dirEntries []
  end.

(** Collect data from the path for each input file. *)
Fixpoint collectPathData (args : list string)
    (inputData : list ResourcePathData)
  : DiagMessage + list ResourcePathData :=
  match args with
  | [] => inr inputData
  | arg :: rest =>
      match extractResourcePathData arg with
      | inr pathData => collectPathData rest (inputData ++ [pathData])
      | inl errorStr =>
          inl (mkDiag Error None (errorStr +:+ " (" +:+ arg +:+ ")"))
      end
  end.

(** The body of the driver's loop for one input, as the compiler it
    dispatches to (or the diagnostic for a directory that names no resource
    type). *)
Definition compileInput (context : CompileContext) (options : CompileOptions)
    (pathData : ResourcePathData) : M unit :=
  when (options_verbose options)
       (note (Some (source pathData)) "processing");;
  if decide (resourceDir pathData = "values") then
    (* Overwrite the extension. *)
    let pathData := with_extension "arsc" pathData in
    let outputFilename := buildIntermediateFilename pathData in
    compileTable context options pathData outputFilename
  else
    let outputFilename := buildIntermediateFilename pathData in
    match parseResourceType (resourceDir pathData) with
    | Some type =>
        if decide (type ≠ kRaw) then
          if decide (extension pathData = "xml") then
            compileXml context options pathData outputFilename
          else if bool_decide (extension pathData = "png")
                  || bool_decide (extension pathData = "9.png") then
            compilePng context options pathData outputFilename
          else
            compileFile context options pathData outputFilename
        else
          compileFile context options pathData outputFilename
    | None =>
        error None ("invalid file path '"
                    +:+ Source_show (source pathData) +:+ "'")
          ≫= λ _, fail
    end.

(** [for (ResourcePathData& pathData : inputData) { ... error = true ... }] *)
Fixpoint compileInputs (context : CompileContext) (options : CompileOptions)
    (inputData : list ResourcePathData) (error : bool) (w : World)
  : bool * World :=
  match inputData with
  | [] => (error, w)
  | pathData :: rest =>
      match compileInput context options pathData w with
      | (Some _, w') => compileInputs context options rest error w'
      | (None, w') => compileInputs context options rest true w'
      end
  end.

Record CompileResult := mkResult {
  exit_code : Z;
  reported : list DiagMessage;
  archive : option ArchiveWriter
}.

(** Entry point for compilation phase.  Parses arguments and dispatches to
    the correct steps.  (The usage text printed on the error stream is not
    part of the model.) *)
Definition compile (fs : FileSystem) (args : list string) : CompileResult :=
  match Flags_parse args with
  | None => mkResult 1 [] None
  | Some flags =>
      let options := flag_options flags in
      let context := {| mVerbose := flag_verbose flags |} in
      let enumerated : DiagMessage
                       + (list ResourcePathData * option ArchiveWriter) :=
        match resDir options with
        | Some _ =>
            if negb (bool_decide (flag_args flags = [])) then
              (* Can't have both files and a resource directory. *)
              inl (mkDiag Error None "files given but --dir specified")
            else
              match loadInputFilesFromDir fs options with
              | inl d => inl d
              | inr inputData =>
                  inr (inputData,
                       createZipFileArchiveWriter fs (outputPath options))
              end
        | None =>
            match collectPathData (flag_args flags) [] with
            | inl d => inl d
            | inr inputData =>
                inr (inputData,
                     createDirectoryArchiveWriter fs (outputPath options))
            end
        end in
      match enumerated with
      | inl d => mkResult 1 [d] None
      | inr (_, None) => mkResult 1 [] None
      | inr (inputData, Some archiveWriter) =>
          let '(error, w) :=
            compileInputs context options inputData false
                          (mkWorld fs archiveWriter []) in
          mkResult (if error then 1 else 0) (diagnostics w) (Some (writer w))
      end
  end.

End Driver.

(** ** Vocabulary of the statements

    The compiled artifact as the format describes it, and what it means for
    the archive to have gained one entry. *)

(** One entry, [name] with [body], was opened, written and sealed between the
    writer states [wr] and [wr']; nothing else about the archive changed. *)
Definition sealed (name : string) (body : list byte) (wr wr' : ArchiveWriter)
  : Prop :=
  current wr = None ∧ refuses wr name = false ∧ (length body ≤ room wr)%nat
  ∧ wr' = mkWriter (aw_kind wr) (entries wr ++ [(name, body)]) None
                   (refuses wr) (room wr - length body).

(** The entry [name] is open and holds [body] so far. *)
Definition writing (name : string) (body : list byte) (wr wr' : ArchiveWriter)
  : Prop :=
  current wr = None ∧ refuses wr name = false ∧ (length body ≤ room wr)%nat
  ∧ wr' = mkWriter (aw_kind wr) (entries wr) (Some (name, body))
                   (refuses wr) (room wr - length body).

(** The rows of an image occupy pairwise disjoint stretches of its pixel
    memory. *)
Definition rows_disjoint (image : Image) : Prop :=
  ∀ i j a b, i ≠ j → rows image !! i = Some a → rows image !! j = Some b →
    (a + 4 * Z.to_nat (width image) ≤ b ∨ b + 4 * Z.to_nat (width image) ≤ a)%nat.

(** The byte of channel [c] of the row [r], if the image has it. *)
Definition pixel_byte (image : Image) (r c : nat) : option byte :=
  row ← rows image !! r; data image !! (row + c)%nat.

Section Vocabulary.
Context `{Passes} `{LegacyPng}.

(** One "(file-descriptor, payload)" pair of the compiled artifact. *)
Definition compiledFileRecord (file : ResourceFile) (payload : list byte)
  : list byte :=
  WriteCompiledFile_bytes (serializeCompiledFileToPb file)
    ++ WriteData_bytes payload.

(** "4-byte little-endian count N", then "N repetitions" of such a pair. *)
Definition envelope (records : list (ResourceFile * list byte)) : list byte :=
  le32 (uint32 (Z.of_nat (length records)))
    ++ mjoin ((λ r, compiledFileRecord r.1 r.2) <$> records).

(** The pair written for a document: its file descriptor and its flattened
    form, raw attribute values kept. *)
Definition flattens (context : CompileContext) (doc : XmlResource)
    (record : ResourceFile * list byte) : Prop :=
  record.1 = xml_file doc
  ∧ XmlFlattener_consume {| keepRawValues := true |} context doc
    = Some record.2.

(** "The driver runs each input to completion independently": every input
    in turn, each from the world its predecessor left, with whether it
    compiled. *)
Fixpoint runEach (context : CompileContext) (options : CompileOptions)
    (inputData : list ResourcePathData) (w : World)
  : list (ResourcePathData * bool) * World :=
  match inputData with
  | [] => ([], w)
  | pathData :: rest =>
      let '(r, w1) := compileInput context options pathData w in
      let '(rs, w2) := runEach context options rest w1 in
      ((pathData, bool_decide (is_Some r)) :: rs, w2)
  end.

End Vocabulary.

(** ** A small executable toolchain

    Stand-ins for the libraries, small enough to run the compile phase on
    concrete inputs: configurations are kept as their text, a "PNG" is a
    width byte, a height byte, the RGBA pixels row by row and then ancillary
    bytes that the chunk filter drops, an XML "document" is its text and
    inline fragments are the pieces after each bar. *)
Module Demo.

Inductive resource_type := Drawable | Layout | Raw.

Global Instance resource_type_eq_dec : EqDecision resource_type.
Proof. solve_decision. Defined.

Definition bytes_of (s : string) : list byte := String.list_byte_of_string s.

Definition decode (content : list byte) : option Image :=
  match content with
  | w :: h :: pixels =>
      let width := N.to_nat (Byte.to_N w) in
      let height := N.to_nat (Byte.to_N h) in
      if decide (4 * width * height ≤ length pixels)%nat
      then Some (mkImage (Z.of_nat width) (Z.of_nat height)
                         ((λ r, r * (4 * width))%nat <$> seq 0 height)
                         (take (4 * width * height) pixels))
      else None
  | _ => None
  end.

Definition filtered (content : list byte) : list byte :=
  match decode content with
  | Some image => take (2 + length (data image)) content
  | None => content
  end.

Definition encode (image : Image) (ninePatch : option unit) : list byte :=
  byte_of_Z (width image) :: byte_of_Z (height image)
    :: mjoin ((λ row, take (4 * Z.to_nat (width image)) (drop row (data image)))
                <$> take (Z.to_nat (height image)) (rows image))
    ++ match ninePatch with Some _ => bytes_of "npTc" | None => [] end
    ++ bytes_of "IEND".

Fixpoint parse_flags (args : list string) (acc : ParsedFlags)
  : option ParsedFlags :=
  match args with
  | [] => if decide (flag_o acc = "") then None else Some acc
  | "-o" :: out :: rest =>
      parse_flags rest
        {| flag_o := out; flag_dir := flag_dir acc;
           flag_pseudo_localize := flag_pseudo_localize acc;
           flag_legacy := flag_legacy acc; flag_v := flag_v acc;
           flag_args := flag_args acc |}
  | "--dir" :: dir :: rest =>
      parse_flags rest
        {| flag_o := flag_o acc; flag_dir := Some dir;
           flag_pseudo_localize := flag_pseudo_localize acc;
           flag_legacy := flag_legacy acc; flag_v := flag_v acc;
           flag_args := flag_args acc |}
  | "-v" :: rest =>
      parse_flags rest
        {| flag_o := flag_o acc; flag_dir := flag_dir acc;
           flag_pseudo_localize := flag_pseudo_localize acc;
           flag_legacy := flag_legacy acc; flag_v := true;
           flag_args := flag_args acc |}
  | arg :: rest =>
      parse_flags rest
        {| flag_o := flag_o acc; flag_dir := flag_dir acc;
           flag_pseudo_localize := flag_pseudo_localize acc;
           flag_legacy := flag_legacy acc; flag_v := flag_v acc;
           flag_args := flag_args acc ++ [arg] |}
  end.

Definition toolchain : Toolchain := {|
  ConfigDescription := string;
  ConfigDescription_default := "";
  ConfigDescription_parse := λ s,
    if decide (s = "bogus") then None else Some s;
  ResourceType := resource_type;
  kRaw := Raw;
  parseResourceType := λ s,
    if decide (s = "drawable") then Some Drawable
    else if decide (s = "layout") then Some Layout
    else if decide (s = "raw") then Some Raw
    else None;
  ResourceTableTypes := list byte;
  ResourceTableTypes_empty := [];
  StringPool := unit;
  XmlElement := list byte;
  ExportedSymbols := list string;
  ExportedSymbols_empty := [];
  NinePatch := unit;
  NinePatch_create := λ image,
    if decide (3 ≤ width image ∧ 3 ≤ height image) then inr ()
    else inl "ninepatch image must be at least 3x3";
  NinePatch_show := λ _, "ninepatch";
  PngChunkFilter := list byte * nat;
  PngChunkFilter_new := λ content, (filtered content, 0%nat);
  PngChunkFilter_ByteCount := λ f, Z.of_nat f.2;
  readPng := λ _ f,
    match decode f.1 with
    | Some image => (Some image, (f.1, length f.1))
    | None => (None, f)
    end;
  writePng := λ _ image ninePatch, Some (encode image ninePatch);
  io_copy := λ f, drop f.2 f.1;
  pb_ResourceTable := list byte;
  pb_CompiledFile := list byte;
  SerializeToZeroCopyStream := λ t, t;
  WriteCompiledFile_bytes := λ f, byte_of_Z (Z.of_nat (length f)) :: f;
  WriteData_bytes := λ d, byte_of_Z (Z.of_nat (length d)) :: d;
  file_appendPath := λ base part, base +:+ "/" +:+ part;
  Flags_parse := λ args,
    parse_flags args
      {| flag_o := ""; flag_dir := None; flag_pseudo_localize := false;
         flag_legacy := false; flag_v := false; flag_args := [] |}
|}.

Fixpoint pieces (sep : byte) (bs : list byte) : list (list byte) :=
  match bs with
  | [] => [[]]
  | b :: bs' =>
      if decide (b = sep) then [] :: pieces sep bs'
      else match pieces sep bs' with
           | p :: ps => (b :: p) :: ps
           | [] => [[b]]
           end
  end.

Definition passes : @Passes toolchain := {|
  StringPool_empty := () : @StringPool toolchain;
  ResourceParser_parse := λ opts src cfg (table : @ResourceTable toolchain)
                            content,
    if decide (content = []) then None
    else Some (mkTable (H := toolchain) (stringPool table)
                 (packages table ++ [mkPackage (H := toolchain) "" None content]));
  PseudolocaleGenerator_consume := λ _ table, Some table;
  serializeTableToPb := λ table : @ResourceTable toolchain,
    mjoin ((λ pkg : @ResourceTablePackage toolchain,
              byte_of_Z (default 255 (pkg_id pkg))
                :: (pkg_types pkg : list byte))
             <$> packages table);
  serializeCompiledFileToPb := λ file : @ResourceFile toolchain,
    bytes_of (rn_entry (rf_name file));
  xml_inflate := λ content src,
    if decide (content = []) then None
    else Some (mkXmlResource (H := toolchain)
                 (mkResourceFile (H := toolchain)
                    (mkResourceName (H := toolchain) "" Raw "") "" src [])
                 content);
  XmlIdCollector_consume := λ _ doc, Some doc;
  InlineXmlFormatParser_consume := λ _ (doc : @XmlResource toolchain),
    match pieces "|"%byte (xml_root doc : list byte) with
    | primary :: fragments =>
        Some (mkXmlResource (H := toolchain) (xml_file doc) primary,
              mkXmlResource (H := toolchain) (xml_file doc) <$> fragments)
    | [] => None
    end;
  XmlFlattener_consume := λ _ _ (doc : @XmlResource toolchain),
    Some (xml_root doc : list byte)
|}.

(** The legacy cruncher of this toolchain gives up on files that carry
    ancillary bytes after the pixels. *)
Definition legacy : LegacyPng := {|
  Png_process := λ _ content,
    if decide (filtered content = content) then Some content else None
|}.

Definition png_2x1 : list byte :=
  [Byte.x02; Byte.x01] ++ bytes_of "rgbaRGBA" ++ bytes_of "tEXt".

Definition png_3x3 : list byte :=
  [Byte.x03; Byte.x03]
    ++ bytes_of "a00.a01.a02.a10.a11.a12.a20.a21.a22.".

Definition files (p : string) : string + list byte :=
  if String.eqb p "res/drawable/photo.png" then inr png_2x1
  else if String.eqb p "res/drawable-hdpi/icon.9.png" then inr png_3x3
  else if String.eqb p "res/layout/main.xml"
       then inr (bytes_of "<View/>|<shape/>")
  else if String.eqb p "res/values/strings.xml" then inr (bytes_of "<string/>")
  else inl "No such file or directory".

Definition disk : FileSystem := {|
  fs_read := files;
  fs_readdir := λ _, inl "Not a directory";
  fs_isDirectory := λ _, false;
  fs_container := λ _ _, Some (λ _, false, 4096%nat)
|}.

Definition start : World :=
  mkWorld disk (mkWriter DirectoryArchive [] None (λ _, false) 4096) [].

Definition options : CompileOptions :=
  {| outputPath := "out"; resDir := None; pseudolocalize := false;
     legacyMode := false; options_verbose := false |}.

Definition quiet : CompileContext := {| mVerbose := false |}.
Definition chatty : CompileContext := {| mVerbose := true |}.

Definition classified (p : string) : @ResourcePathData toolchain :=
  match extractResourcePathData (H := toolchain) p with
  | inr pathData => pathData
  | inl _ => mkResourcePathData (H := toolchain) (Source_of_path p) "" "" "" "" ""
  end.

End Demo.

(** ** Further vocabulary: what a computation leaves alone *)

Section EntryNames.
Context `{Toolchain}.

(** The name of the entry the driver opens for an input: built from the
    descriptor, after the extension of a [values] input has been overwritten. *)
Definition entryName (pathData : ResourcePathData) : string :=
  if decide (resourceDir pathData = "values")
  then buildIntermediateFilename (with_extension "arsc" pathData)
  else buildIntermediateFilename pathData.

End EntryNames.

(** The computation seals no entry: the finished entries are as they were,
    however it ends. *)
Definition keeps_entries {A} (m : M A) : Prop :=
  ∀ w r w', m w = (r, w') → entries (writer w') = entries (writer w).

(** The computation seals no entry when it fails. *)
Definition fails_cleanly {A} (m : M A) : Prop :=
  ∀ w w', m w = (None, w') → entries (writer w') = entries (writer w).

(** The computation only adds diagnostics, and when it succeeds it has added
    notes only, none at all unless [chatty]. *)
Definition reports_tidily {A} (chatty : bool) (m : M A) : Prop :=
  ∀ w r w', m w = (r, w') →
    ∃ ds, diagnostics w' = diagnostics w ++ ds
          ∧ (is_Some r →
             Forall (λ d, dm_level d = Note) ds ∧ (chatty = false → ds = [])).

Section Enumeration.
Context `{Toolchain}.

(** The walk of the resource directory, said in one piece: the entries of the
    root that are not hidden and are directories, in listing order, and in
    each of them the children that are not hidden, in listing order. *)
Definition leafPaths (fs : FileSystem) (rootDir entry : string) : list string :=
  match fs_readdir fs (file_appendPath rootDir entry) with
  | inr leaves =>
      file_appendPath (file_appendPath rootDir entry)
        <$> filter (λ leaf, isHidden leaf = false) leaves
  | inl _ => []
  end.

Definition enumeratedPaths (fs : FileSystem) (rootDir : string)
    (dirEntries : list string) : list string :=
  filter (λ entry, isHidden entry = false
                   ∧ fs_isDirectory fs (file_appendPath rootDir entry) = true)
         dirEntries
    ≫= leafPaths fs rootDir.

End Enumeration.

(** A resource tree for the executable toolchain: two resource directories,
    a hidden directory, a plain file at the root and a hidden editor file. *)
Module Tree.

Definition listing (p : string) : string + list string :=
  if String.eqb p "res" then inr ["values"; ".git"; "layout"; "README"]
  else if String.eqb p "res/values"
       then inr ["strings.xml"; ".strings.xml.swp"]
  else if String.eqb p "res/layout" then inr ["main.xml"]
  else if String.eqb p "res/.git" then inr ["HEAD"]
  else inl "Not a directory".

Definition files (p : string) : string + list byte :=
  if String.eqb p "res/drawable/thin.9.png" then inr Demo.png_2x1
  else if String.eqb p "res/raw/notes.xml" then inr (Demo.bytes_of "<notes/>")
  else Demo.files p.

Definition disk : FileSystem := {|
  fs_read := files;
  fs_readdir := listing;
  fs_isDirectory := λ p, match listing p with inr _ => true | inl _ => false end;
  fs_container := λ _ _, Some (λ _, false, 4096%nat)
|}.

Definition options : CompileOptions :=
  {| outputPath := "out"; resDir := Some "res"; pseudolocalize := false;
     legacyMode := false; options_verbose := false |}.

Definition start : World :=
  mkWorld disk (mkWriter DirectoryArchive [] None (λ _, false) 4096) [].

End Tree.

(** A step that may add sealed entries to the archive but does not change the
    kind of container and does not remove or rewrite an entry. *)
Definition extends_archive {A} (m : M A) : Prop :=
  ∀ w r w', m w = (r, w') →
    aw_kind (writer w') = aw_kind (writer w)
    ∧ entries (writer w) `prefix_of` entries (writer w').

(** * The gradient cache (libs/hwui GradientCache.cpp)

    The integer part of the cache: the size of the texture a gradient is
    rendered into and the split of a colour into its channels.  The texture
    upload, the LRU map and the float interpolation are outside the model. *)
Module GradientCache.

(** The fields of the cache the functions below read; [mMaxTextureSize] is
    the [GLint] the driver reports. *)
Record GradientCache := mkCache {
  mUseFloatTexture : bool;
  mHasNpot : bool;
  mMaxTextureSize : Z
}.

Record GradientInfo := mkInfo {
  width : Z;
  hasAlpha : bool
}.

(** The channels are [float] in the source; [splitToBytes] stores integers
    between 0 and 255 in them, which a [float] holds exactly. *)
Record GradientColor := mkColor {
  r : Z;
  g : Z;
  b : Z;
  a : Z
}.

Definition min (a b : Z) : Z := if a <? b then a else b.

Definition int32_range (v : Z) : Prop := - 2 ^ 31 ≤ v < 2 ^ 31.

(** [__builtin_clz] on a 32-bit operand: the number of leading zero bits,
    undefined at 0. *)
Definition clz (x : Z) : option Z :=
  if decide (0 < x < 2 ^ 32) then Some (31 - Z.log2 x) else None.

(** [for (int i = 0; i < count; i++) if (((colors[i] >> 24) & 0xff) < 255)
    { hasAlpha = true; break; }], from index [i] with [remaining] rounds to
    go.  A read past the end of the array is undefined: [None]. *)
Fixpoint scanAlpha (colors : list Z) (i remaining : nat) : option bool :=
  match remaining with
  | O => Some false
  | S remaining =>
      c ← colors !! i;
      if Z.land (Z.shiftr c 24) 255 <? 255 then Some true
      else scanAlpha colors (S i) remaining
  end.

(** [256 * (count - 1)] is computed in [int] and is undefined when it
    overflows; the conversion to [uint32_t] wraps.  [1 << n] is an [int]
    shift: the model gives it a value for [n < 31] only. *)
Definition getGradientInfo (cache : GradientCache) (colors : list Z)
    (count : Z) : option GradientInfo :=
  if decide (int32_range (count - 1) ∧ int32_range (256 * (count - 1))) then
    let width := uint32 (256 * (count - 1)) in
    (* If the npot extension is not supported we cannot use non-clamp
       wrap modes. We therefore find the nearest largest power of 2
       unless width is already a power of 2 *)
    width ←
      (if negb (mHasNpot cache)
          && negb (Z.land width (uint32 (width - 1)) =? 0)
       then
         zeros ← clz width;
         if decide (32 - zeros < 31)
         then Some (uint32 (Z.shiftl 1 (32 - zeros)))
         else None
       else Some width);
    hasAlpha ← scanAlpha colors 0 (Z.to_nat count);
    Some (mkInfo (min width (uint32 (mMaxTextureSize cache))) hasAlpha)
  else None.

(** We use 4 channels (RGBA). *)
Definition bytesPerPixel (cache : GradientCache) : Z :=
  4 * (if mUseFloatTexture cache then 4 else 1).

Definition splitToBytes (inColor : Z) : GradientColor :=
  {| r := Z.land (Z.shiftr inColor 16) 255;
     g := Z.land (Z.shiftr inColor 8) 255;
     b := Z.land (Z.shiftr inColor 0) 255;
     a := Z.land (Z.shiftr inColor 24) 255 |}.

End GradientCache.

(** * Properties *)

(** ** Facts about the string primitives *)

Section StrFacts.

Lemma app_cons (a : ascii) (s t : string) :
  String a s +:+ t = String a (s +:+ t).
Proof. reflexivity. Qed.

Lemma app_empty_l (t : string) : "" +:+ t = t.
Proof. reflexivity. Qed.

Lemma app_empty_r (s : string) : s +:+ "" = s.
Proof. induction s as [|a s IH]; [done|]. by rewrite app_cons, IH. Qed.

Lemma app_assoc' (s t u : string) : (s +:+ t) +:+ u = s +:+ t +:+ u.
Proof. induction s as [|a s IH]; [done|]. by rewrite !app_cons, IH. Qed.

Lemma length_app' (s t : string) :
  String.length (s +:+ t) = (String.length s + String.length t)%nat.
Proof. induction s as [|a s IH]; [done|]. rewrite app_cons. simpl. lia. Qed.

Lemma has_char_empty c : ¬ Str.has_char c "".
Proof. intros ([|??] & post & E); discriminate E. Qed.

Lemma has_char_cons c d s :
  Str.has_char c (String d s) ↔ d = c ∨ Str.has_char c s.
Proof.
  split.
  - intros ([|a pre] & post & E).
    + rewrite app_empty_l in E. injection E as -> _. by left.
    + rewrite app_cons in E. injection E as -> ->. right. by exists pre, post.
  - intros [->|(pre & post & ->)].
    + by exists "", s.
    + by exists (String d pre), post.
Qed.

Lemma has_char_app c s t :
  Str.has_char c (s +:+ t) ↔ Str.has_char c s ∨ Str.has_char c t.
Proof.
  induction s as [|a s IH].
  - rewrite app_empty_l. split; [by right|].
    intros [H|H]; [by apply has_char_empty in H|done].
  - rewrite app_cons, !has_char_cons, IH. tauto.
Qed.

Lemma find_char_None c s : Str.find_char c s = None ↔ ¬ Str.has_char c s.
Proof.
  induction s as [|d s IH]; simpl.
  - split; [intros _; apply has_char_empty|done].
  - rewrite has_char_cons. case_decide as Hd.
    + split; [done|]. intros []. by left.
    + rewrite fmap_None, IH. tauto.
Qed.

(** The position [find] returns is that of the first occurrence. *)
Lemma find_char_first c a b :
  ¬ Str.has_char c a →
  Str.find_char c (a +:+ String c b) = Some (String.length a).
Proof.
  induction a as [|d a IH]; intros Ha.
  - rewrite app_empty_l. simpl. by rewrite decide_True.
  - rewrite has_char_cons in Ha. rewrite app_cons. simpl.
    rewrite decide_False by tauto. rewrite IH by tauto. done.
Qed.

Lemma find_char_Some c s n :
  Str.find_char c s = Some n →
  ∃ a b, s = a +:+ String c b ∧ ¬ Str.has_char c a ∧ String.length a = n.
Proof.
  revert n. induction s as [|d s IH]; intros n; simpl; [done|].
  case_decide as Hd.
  - intros [= <-]. subst d. exists "", s. split_and!; [done| |done].
    apply has_char_empty.
  - intros (m & Hm & ->)%fmap_Some. destruct (IH _ Hm) as (a & b & -> & Ha & <-).
    exists (String d a), b. split_and!; [done| |done].
    rewrite has_char_cons. tauto.
Qed.

Lemma has_char_split c s :
  Str.has_char c s →
  ∃ a b, s = a +:+ String c b ∧ ¬ Str.has_char c a.
Proof.
  intros Hs. destruct (Str.find_char c s) as [n|] eqn:E.
  - destruct (find_char_Some _ _ _ E) as (a & b & ? & ? & _). eauto.
  - by apply find_char_None in E.
Qed.

Lemma first_split_unique c a b a' b' :
  ¬ Str.has_char c a → ¬ Str.has_char c a' →
  a +:+ String c b = a' +:+ String c b' → a = a' ∧ b = b'.
Proof.
  revert a'. induction a as [|d a IH]; intros [|d' a'] Ha Ha' E.
  - rewrite !app_empty_l in E. by injection E as ->.
  - rewrite app_empty_l, app_cons in E. injection E as <- _.
    exfalso. apply Ha', has_char_cons. by left.
  - rewrite app_empty_l, app_cons in E. injection E as -> _.
    exfalso. apply Ha, has_char_cons. by left.
  - rewrite !app_cons in E. injection E as -> E.
    rewrite has_char_cons in Ha, Ha'.
    destruct (IH a') as [-> ->]; [tauto..|done|done].
Qed.

Lemma take_app_length (a b : string) : Str.take (String.length a) (a +:+ b) = a.
Proof.
  induction a as [|d a IH].
  - by destruct b.
  - rewrite app_cons. simpl. by rewrite IH.
Qed.

Lemma drop_app_length (a b : string) : Str.drop (String.length a) (a +:+ b) = b.
Proof. induction a as [|d a IH]; [done|]. by rewrite app_cons. Qed.

Lemma take_all (s : string) : Str.take (String.length s) s = s.
Proof. induction s as [|d s IH]; [done|]. simpl. by rewrite IH. Qed.

(** "Left" of a split at the separator [c]. *)
Lemma substr_left c (a b : string) :
  Str.substr 0 (String.length a) (a +:+ String c b) = a.
Proof.
  unfold Str.substr. rewrite length_app'. rewrite decide_True by (simpl; lia).
  simpl. apply take_app_length.
Qed.

(** "Right" of a split at the separator [c]. *)
Lemma substr_right c (a b : string) :
  Str.substr (String.length a + 1)
             (String.length (a +:+ String c b) - (String.length a + 1))
             (a +:+ String c b) = b.
Proof.
  unfold Str.substr. rewrite length_app'. simpl.
  rewrite decide_True by lia.
  replace (String.length a + 1)%nat with (String.length (a +:+ String c ""))
    by (rewrite length_app'; simpl; lia).
  replace (a +:+ String c b) with ((a +:+ String c "") +:+ b)
    by (by rewrite app_assoc').
  rewrite drop_app_length, length_app'. simpl.
  replace (String.length a + S (String.length b) - (String.length a + 1))%nat
    with (String.length b) by lia.
  apply take_all.
Qed.

Lemma split_no_sep sep s : ¬ Str.has_char sep s → Str.split sep s = [s].
Proof.
  induction s as [|d s IH]; intros Hs; [done|].
  rewrite has_char_cons in Hs. simpl.
  rewrite decide_False by (intros ->; tauto). rewrite IH by tauto. done.
Qed.

Lemma split_app sep a b :
  ¬ Str.has_char sep a →
  Str.split sep (a +:+ String sep b) = a :: Str.split sep b.
Proof.
  induction a as [|d a IH]; intros Ha.
  - rewrite app_empty_l. simpl. by rewrite decide_True.
  - rewrite has_char_cons in Ha. rewrite app_cons. simpl.
    rewrite decide_False by (intros ->; tauto). rewrite IH by tauto. done.
Qed.

Lemma starts_with_spec p s :
  Str.starts_with p s = true ↔ ∃ post, s = p +:+ post.
Proof.
  revert s. induction p as [|a p IH]; intros s.
  - split; [intros _; by exists s|done].
  - destruct s as [|b s]; simpl.
    + split; [done|]. intros (post & E). discriminate E.
    + rewrite andb_true_iff, bool_decide_eq_true, IH. split.
      * intros (-> & post & ->). by exists post.
      * intros (post & E). rewrite app_cons in E. injection E as -> ->. eauto.
Qed.

(** [find] misses exactly when the pattern occurs nowhere. *)
Lemma find_None p s : Str.find p s = None ↔ ¬ Str.contains p s.
Proof.
  induction s as [|d s IH].
  - simpl. destruct (Str.starts_with p "") eqn:E.
    + apply starts_with_spec in E as (post & E). split; [done|].
      intros []. exists "", post. by rewrite app_empty_l.
    + split; [|done]. intros _ ([|??] & post & E'); [|discriminate E'].
      rewrite app_empty_l in E'.
      assert (Str.starts_with p "" = true) by (apply starts_with_spec; eauto).
      congruence.
  - simpl. destruct (Str.starts_with p (String d s)) eqn:E.
    + apply starts_with_spec in E as (post & E). split; [done|].
      intros []. exists "", post. by rewrite app_empty_l.
    + rewrite fmap_None, IH. split.
      * intros Hs ([|e pre] & post & E').
        -- rewrite app_empty_l in E'.
           assert (Str.starts_with p (String d s) = true)
             by (apply starts_with_spec; eauto).
           congruence.
        -- rewrite app_cons in E'. injection E' as -> ->.
           apply Hs. by exists pre, post.
      * intros Hs (pre & post & ->). apply Hs.
        exists (String d pre), post. by rewrite app_cons.
Qed.

Lemma find_Some_contains p s n : Str.find p s = Some n → Str.contains p s.
Proof.
  revert n. induction s as [|d s IH]; intros n; simpl.
  - destruct (Str.starts_with p "") eqn:E; [|done].
    apply starts_with_spec in E as (post & E). intros _.
    exists "", post. by rewrite app_empty_l.
  - destruct (Str.starts_with p (String d s)) eqn:E.
    + apply starts_with_spec in E as (post & E). intros _.
      exists "", post. by rewrite app_empty_l.
    + intros (m & Hm & _)%fmap_Some. destruct (IH _ Hm) as (pre & post & ->).
      exists (String d pre), post. by rewrite app_cons.
Qed.

End StrFacts.

(** ** The path classifier *)

Section ClassifierFacts.
Context `{Toolchain}.

Lemma split_nonempty sep s : Str.split sep s ≠ [].
Proof.
  destruct s as [|c s]; simpl; [done|].
  case_decide; [done|]. by destruct (Str.split sep s).
Qed.

Lemma split_app_sep sep p rest :
  Str.split sep (p +:+ String sep rest) = Str.split sep p ++ Str.split sep rest.
Proof.
  induction p as [|c p IH].
  - rewrite app_empty_l. simpl. by rewrite decide_True.
  - rewrite app_cons. simpl. case_decide; rewrite IH; [done|].
    pose proof (split_nonempty sep p). by destruct (Str.split sep p).
Qed.

(** The two components the classifier looks at. *)
Lemma components_of_split (parts : list string) (dir filename : string) :
  let l := parts ++ [dir; filename] in
  l !!! (length l - 2)%nat = dir ∧ l !!! (length l - 1)%nat = filename.
Proof.
  cbv zeta. rewrite length_app. simpl. split.
  - rewrite lookup_total_app_r by lia.
    by replace (length parts + 2 - 2 - length parts)%nat with 0%nat by lia.
  - rewrite lookup_total_app_r by lia.
    by replace (length parts + 2 - 1 - length parts)%nat with 1%nat by lia.
Qed.

(** The classifier, seen from the last two components of the path. *)
Lemma extract_last_two path parts dir filename :
  Str.split sDirSep path = parts ++ [dir; filename] →
  extractResourcePathData path =
    match dir_parts dir with
    | inl err => inl err
    | inr (dirStr, configStr, config) =>
        inr (mkResourcePathData (Source_of_path path) dirStr
               (file_parts filename).1 (file_parts filename).2 configStr config)
    end.
Proof.
  intros Hs. unfold extractResourcePathData. cbv zeta. rewrite Hs.
  destruct (components_of_split parts dir filename) as [-> ->].
  rewrite decide_False by (rewrite length_app; simpl; lia).
  fold (dir_parts dir). destruct (dir_parts dir) as [err|[[dirStr configStr] config]];
    [done|].
  fold (file_parts filename). by destruct (file_parts filename).
Qed.

(** Every path with at least two components has such a last pair. *)
Lemma split_last_two (l : list string) :
  ¬ (length l < 2)%nat → ∃ parts dir filename, l = parts ++ [dir; filename].
Proof.
  intros Hl. destruct (decide (l = [])) as [->|Hne]; [simpl in Hl; lia|].
  destruct (exists_last Hne) as (l1 & filename & ->).
  destruct (decide (l1 = [])) as [->|Hne1]; [simpl in Hl; lia|].
  destruct (exists_last Hne1) as (parts & dir & ->).
  exists parts, dir, filename. by rewrite <-app_assoc.
Qed.

Lemma file_parts_dot a b :
  ¬ Str.has_char "." a → file_parts (a +:+ String "." b) = (a, b).
Proof.
  intros Ha. unfold file_parts. rewrite find_char_first by done.
  by rewrite substr_left, substr_right.
Qed.

Lemma dir_parts_dash type qual config :
  ¬ Str.has_char "-" type → ConfigDescription_parse qual = Some config →
  dir_parts (type +:+ String "-" qual) = inr (type, qual, config).
Proof.
  intros Ht Hq. unfold dir_parts. rewrite find_char_first by done.
  cbv zeta. rewrite substr_right, Hq. by rewrite substr_left.
Qed.

Lemma dir_parts_plain type :
  ¬ Str.has_char "-" type →
  dir_parts type = inr (type, "", ConfigDescription_default).
Proof.
  intros Ht. unfold dir_parts. by apply find_char_None in Ht as ->.
Qed.

End ClassifierFacts.

Section ClassifierSpec.
Context `{Toolchain}.

(** C4.  For every path whose last component contains a dot, the classifier
    splits that filename at its first dot: [name] is what precedes the first
    dot and [extension] everything after it.  In particular a filename
    [foo.9.png] gives the name [foo] and the extension [9.png], not [png]. *)
Theorem extract_splits_at_first_dot (path : string) (pd : ResourcePathData)
    (filename : string) :
  extractResourcePathData path = inr pd →
  last (Str.split sDirSep path) = Some filename →
  Str.has_char "." filename →
  (∃ a b, filename = a +:+ "." +:+ b ∧ ¬ Str.has_char "." a
          ∧ name pd = a ∧ extension pd = b)
  ∧ (filename = "foo.9.png" → name pd = "foo" ∧ extension pd = "9.png").
Proof.
  intros Hpd Hlast Hdot.
  assert (∃ a b, filename = a +:+ "." +:+ b ∧ ¬ Str.has_char "." a
                 ∧ name pd = a ∧ extension pd = b) as Hsplit.
  { destruct (decide (length (Str.split sDirSep path) < 2)%nat) as [Hlen|Hlen].
    { unfold extractResourcePathData in Hpd. cbv zeta in Hpd.
      by rewrite decide_True in Hpd. }
    destruct (split_last_two _ Hlen) as (parts & dir & filename' & Hs).
    rewrite Hs in Hlast. rewrite last_app in Hlast. simpl in Hlast.
    injection Hlast as ->.
    rewrite (extract_last_two _ _ _ _ Hs) in Hpd.
    destruct (dir_parts dir) as [?|[[dirStr cs] cfg]]; [done|].
    injection Hpd as <-. simpl.
    destruct (has_char_split _ _ Hdot) as (a & b & -> & Ha).
    exists a, b. by rewrite file_parts_dot. }
  split; [done|]. intros ->.
  destruct Hsplit as (a & b & E & Ha & -> & ->).
  assert (¬ Str.has_char "." "foo") as Hfoo by (by apply find_char_None).
  by destruct (first_split_unique "." "foo" "9.png" a b Hfoo Ha E).
Qed.

(** C9.  For a path [res/type-qual/name.ext] (no separator in the tokens, no
    dash in the type, no dot in the name, a qualifier that parses, qualifier
    and extension present) the entry name built from its classification is
    [type-qual_name.ext.flat]; for [res/type/name.ext] it is
    [type_name.ext.flat], with no dash before the underscore. *)
Theorem entry_name_of_classified_path (type nm ext : string) :
  ¬ Str.has_char sDirSep type → ¬ Str.has_char "-" type →
  ¬ Str.has_char sDirSep nm → ¬ Str.has_char "." nm →
  ¬ Str.has_char sDirSep ext → ext ≠ "" →
  (∀ qual cfg,
     ¬ Str.has_char sDirSep qual → qual ≠ "" →
     ConfigDescription_parse qual = Some cfg →
     ∃ pd, extractResourcePathData
             ("res/" +:+ type +:+ "-" +:+ qual +:+ "/" +:+ nm +:+ "." +:+ ext)
           = inr pd
           ∧ buildIntermediateFilename pd
             = type +:+ "-" +:+ qual +:+ "_" +:+ nm +:+ "." +:+ ext +:+ ".flat")
  ∧ (∃ pd, extractResourcePathData
             ("res/" +:+ type +:+ "/" +:+ nm +:+ "." +:+ ext) = inr pd
           ∧ buildIntermediateFilename pd
             = type +:+ "_" +:+ nm +:+ "." +:+ ext +:+ ".flat").
Proof.
  intros Htype Hdash Hnm Hdot Hext Hext'.
  assert (¬ Str.has_char sDirSep (nm +:+ String "." ext)) as Hfile.
  { rewrite has_char_app, has_char_cons. unfold sDirSep in *.
    intros [?|[?|?]]; done. }
  assert (∀ dir, ¬ Str.has_char sDirSep dir →
            Str.split sDirSep ("res" +:+ String sDirSep
                                 (dir +:+ String sDirSep (nm +:+ String "." ext)))
            = ["res"] ++ [dir; nm +:+ String "." ext]) as Hsplit.
  { intros dir Hdir. rewrite split_app_sep, split_app by done.
    rewrite (split_no_sep _ (nm +:+ _)) by done. done. }
  split.
  - intros qual cfg Hqual Hqual' Hcfg.
    assert (¬ Str.has_char sDirSep (type +:+ String "-" qual)) as Hdir.
    { rewrite has_char_app, has_char_cons. unfold sDirSep in *.
      intros [?|[?|?]]; done. }
    eexists. split.
    + change ("res/" +:+ type +:+ "-" +:+ qual +:+ "/" +:+ nm +:+ "." +:+ ext)
        with ("res" +:+ String sDirSep
                (type +:+ String "-" (qual +:+ String sDirSep
                                        (nm +:+ String "." ext)))).
      replace (type +:+ String "-" (qual +:+ String sDirSep
                                      (nm +:+ String "." ext)))
        with ((type +:+ String "-" qual) +:+ String sDirSep
                (nm +:+ String "." ext))
        by (by rewrite app_assoc', app_cons).
      rewrite (extract_last_two _ _ _ _ (Hsplit _ Hdir)).
      rewrite (dir_parts_dash _ _ _ Hdash Hcfg), file_parts_dot by done.
      reflexivity.
    + unfold buildIntermediateFilename. simpl.
      rewrite !decide_False by done.
      by rewrite !app_assoc'.
  - eexists. split.
    + change ("res/" +:+ type +:+ "/" +:+ nm +:+ "." +:+ ext)
        with ("res" +:+ String sDirSep
                (type +:+ String sDirSep (nm +:+ String "." ext))).
      rewrite (extract_last_two _ _ _ _ (Hsplit _ Htype)).
      rewrite (dir_parts_plain _ Hdash), file_parts_dot by done.
      reflexivity.
    + unfold buildIntermediateFilename. simpl.
      rewrite decide_False by done.
      by rewrite !app_assoc'.
Qed.

End ClassifierSpec.

Lemma extract_splits_at_first_dot_witness :
  ∃ pd, extractResourcePathData (H := Demo.toolchain) "res/drawable/foo.9.png"
        = inr pd
        ∧ name pd = "foo" ∧ extension pd = "9.png".
Proof.
  eexists. split; [reflexivity|].
  refine (proj2 (extract_splits_at_first_dot (H := Demo.toolchain)
                   "res/drawable/foo.9.png" _ "foo.9.png" _ _ _) _).
  - reflexivity.
  - reflexivity.
  - by exists "foo", "9.png".
  - reflexivity.
Defined.

Lemma entry_name_of_classified_path_witness :
  (∃ pd, extractResourcePathData (H := Demo.toolchain)
           "res/drawable-hdpi/icon.9.png" = inr pd
         ∧ buildIntermediateFilename pd = "drawable-hdpi_icon.9.png.flat")
  ∧ (∃ pd, extractResourcePathData (H := Demo.toolchain)
             "res/drawable/icon.9.png" = inr pd
           ∧ buildIntermediateFilename pd = "drawable_icon.9.png.flat").
Proof.
  assert (∀ c s, Str.find_char c s = None → ¬ Str.has_char c s) as Hno
    by (intros c s; apply find_char_None).
  destruct (entry_name_of_classified_path (H := Demo.toolchain)
              "drawable" "icon" "9.png"
              (Hno sDirSep "drawable" eq_refl) (Hno "-"%char "drawable" eq_refl)
              (Hno sDirSep "icon" eq_refl) (Hno "."%char "icon" eq_refl)
              (Hno sDirSep "9.png" eq_refl) ltac:(discriminate))
    as [Hqual Hplain].
  split; [|exact Hplain].
  apply (Hqual "hdpi" "hdpi"); [by apply Hno|discriminate|reflexivity].
Defined.

(** ** Running the monad *)

Section MonadFacts.

Lemma bind_Some {A B} (m : M A) (k : A → M B) w b w' :
  (m ≫= k) w = (Some b, w') ↔
  ∃ a w1, m w = (Some a, w1) ∧ k a w1 = (Some b, w').
Proof.
  unfold mbind, M_bind. destruct (m w) as [[a|] w1] eqn:E.
  - split; [eauto|]. by intros (? & ? & [= -> ->] & ?).
  - split; [done|]. by intros (? & ? & ? & ?).
Qed.

Lemma bind_None {A B} (m : M A) (k : A → M B) w w' :
  (m ≫= k) w = (None, w') ↔
  m w = (None, w') ∨ ∃ a w1, m w = (Some a, w1) ∧ k a w1 = (None, w').
Proof.
  unfold mbind, M_bind. destruct (m w) as [[a|] w1] eqn:E.
  - split; [eauto|]. by intros [?|(? & ? & [= -> ->] & ?)].
  - split; [intros [= ->]; by left|]. intros [[= ->]|(? & ? & ? & ?)]; done.
Qed.

Lemma ret_Some {A} (a b : A) w w' :
  (mret a : M A) w = (Some b, w') ↔ a = b ∧ w' = w.
Proof. unfold mret, M_ret. split; [by intros [= -> ->]|by intros [-> ->]]. Qed.

Lemma lift_Some {A} (o : option A) a w w' :
  lift o w = (Some a, w') ↔ o = Some a ∧ w' = w.
Proof. unfold lift. split; [by intros [= -> ->]|by intros [-> ->]]. Qed.

Lemma fail_Some {A} (a : A) w w' : fail (A := A) w = (Some a, w') ↔ False.
Proof. unfold fail. split; [by intros [=]|done]. Qed.

Lemma report_Some l src msg u w w' :
  report l src msg w = (Some u, w') →
  fs w' = fs w ∧ writer w' = writer w.
Proof. unfold report. by intros [= _ <-]. Qed.

Lemma when_report_Some b l src msg u w w' :
  when b (report l src msg) w = (Some u, w') →
  fs w' = fs w ∧ writer w' = writer w.
Proof.
  destruct b; simpl; [apply report_Some|]. by intros [_ ->]%ret_Some.
Qed.

Lemma require_Some ok src msg u w w' :
  require ok src msg w = (Some u, w') ↔ ok = true ∧ w' = w.
Proof.
  unfold require. destruct ok.
  - rewrite ret_Some. destruct u. tauto.
  - rewrite bind_Some. split; [|by intros [[=] _]].
    intros (? & ? & _ & []%fail_Some).
Qed.

Lemma require_None ok src msg w w' :
  require ok src msg w = (None, w') →
  ok = false ∧ fs w' = fs w ∧ writer w' = writer w.
Proof.
  unfold require. destruct ok; [done|].
  intros [E|(u & w1 & E & [= <-])]%bind_None; [done|].
  by apply report_Some in E.
Qed.

Lemma readInput_Some src content w w' :
  readInput src w = (Some content, w') ↔
  fs_read (fs w) (path src) = inr content ∧ w' = w.
Proof.
  unfold readInput. destruct (fs_read (fs w) (path src)) as [err|c].
  - rewrite bind_Some. split; [|by intros [[=] _]].
    intros (? & ? & _ & []%fail_Some).
  - split; [by intros [= -> ->]|by intros [[= ->] ->]].
Qed.

Lemma readInput_None src w w' :
  readInput src w = (None, w') → fs w' = fs w ∧ writer w' = writer w.
Proof.
  unfold readInput. destruct (fs_read (fs w) (path src)) as [err|c]; [|done].
  intros [E|(u & w1 & E & [= <-])]%bind_None; [done|].
  by apply report_Some in E.
Qed.

Lemma on_writer_Some f ok w w' :
  on_writer f w = (Some ok, w') ↔
  ok = (f (writer w)).1
  ∧ w' = mkWorld (fs w) (f (writer w)).2 (diagnostics w).
Proof.
unfold on_writer. destruct (f (writer w)) as [b wr]. simpl.
split; [by intros [= -> <-]|by intros [-> ->]].
Qed.

End MonadFacts.

(** ** The archive writer *)

Section WriterFacts.

Lemma startEntry_true p flags wr wr' :
  startEntry p flags wr = (true, wr') → writing p [] wr wr'.
Proof.
  unfold startEntry, writing. destruct (current wr) eqn:Ec; [done|].
  destruct (refuses wr p) eqn:Er; [done|]. intros [= <-].
  split_and!; [done|done|simpl; lia|]. by rewrite Nat.sub_0_r.
Qed.

Lemma writeEntry_true p body bs wr0 wr wr' :
  writing p body wr0 wr → writeEntry bs wr = (true, wr') →
  writing p (body ++ bs) wr0 wr'.
Proof.
  intros (Hc & Hr & Hroom & ->). unfold writeEntry, writing. simpl.
  case_decide as Hbs; [|done]. intros [= <-].
  split_and!; [done|done|rewrite length_app; lia|].
  f_equal. rewrite length_app. lia.
Qed.

Lemma finishEntry_true p body wr0 wr wr' ok :
  writing p body wr0 wr → finishEntry wr = (ok, wr') →
  ok = true ∧ sealed p body wr0 wr'.
Proof.
  intros (Hc & Hr & Hroom & ->). unfold finishEntry, sealed. simpl.
  by intros [= <- <-].
Qed.

Lemma sealed_entries p body wr wr' :
  sealed p body wr wr' →
  entries wr' = entries wr ++ [(p, body)] ∧ current wr' = None.
Proof. by intros (_ & _ & _ & ->). Qed.

End WriterFacts.

(** ** What a successful compilation has written *)

Section CompilerFacts.
Context `{Passes} `{LegacyPng}.

Lemma out_write_ok bs e w w' :
  out_write bs e w = (Some false, w') →
  e = false ∧ writeEntry bs (writer w) = (true, writer w')
  ∧ fs w' = fs w ∧ diagnostics w' = diagnostics w.
Proof.
  unfold out_write. destruct e; [by intros [[=] _]%ret_Some|].
  intros (ok & w1 & [-> ->]%on_writer_Some & [Hok ->]%ret_Some)%bind_Some.
  simpl. destruct (writeEntry bs (writer w)) as [[] wr]; done.
Qed.

Lemma out_write_writing p body wr0 bs e w w' :
  writing p body wr0 (writer w) →
  out_write bs e w = (Some false, w') →
  e = false ∧ writing p (body ++ bs) wr0 (writer w') ∧ fs w' = fs w.
Proof.
  intros Hw (-> & Hwr & Hfs & _)%out_write_ok.
  eauto using writeEntry_true.
Qed.

Lemma startEntry_writing p w ok w1 :
  on_writer (startEntry p 0) w = (Some ok, w1) → ok = true →
  writing p [] (writer w) (writer w1) ∧ fs w1 = fs w.
Proof.
  intros [-> ->]%on_writer_Some Hok. simpl. split; [|done].
  apply (startEntry_true p 0). by destruct (startEntry p 0 (writer w)) as [[] ?].
Qed.

Lemma finishEntry_sealed p body wr0 w ok w1 :
  writing p body wr0 (writer w) →
  on_writer finishEntry w = (Some ok, w1) →
  ok = true ∧ sealed p body wr0 (writer w1) ∧ fs w1 = fs w.
Proof.
  intros Hw [-> ->]%on_writer_Some. simpl.
  destruct (finishEntry (writer w)) as [ok wr] eqn:E.
  destruct (finishEntry_true _ _ _ _ _ _ Hw E) as [-> ?]. done.
Qed.

(** The values compiler: the entry is the serialized table and nothing
    else. *)
Lemma compileTable_success context options pathData out w w' :
  compileTable context options pathData out w = (Some (), w') →
  ∃ fin parsed table,
    fs_read (fs w) (path (source pathData)) = inr fin
    ∧ ResourceParser_parse (parserOptions_of options pathData)
        (source pathData) (config pathData) (mkTable StringPool_empty []) fin
      = Some parsed
    ∧ (if pseudolocalize options
       then PseudolocaleGenerator_consume context parsed
       else Some parsed) = Some table
    ∧ sealed out
        (SerializeToZeroCopyStream
           (serializeTableToPb
              (assignPackageIds context
                 (createPackage (getCompilationPackage context) table))))
        (writer w) (writer w')
    ∧ fs w' = fs w.
Proof.
  intros Hrun. unfold compileTable in Hrun. cbv zeta in Hrun.
  apply bind_Some in Hrun as (fin & ? & [Hfin ->]%readInput_Some & Hrun).
  apply bind_Some in Hrun as (parsed & ? & [Hparsed ->]%lift_Some & Hrun).
  apply bind_Some in Hrun as (table & w1 & Htable & Hrun).
  assert ((if pseudolocalize options
           then PseudolocaleGenerator_consume context parsed
           else Some parsed) = Some table ∧ w1 = w) as [Ht ->].
  { destruct (pseudolocalize options).
    - by apply lift_Some in Htable.
    - apply ret_Some in Htable as [-> ->]. done. }
  apply bind_Some in Hrun as (ok & w2 & Hstart & Hrun).
  apply bind_Some in Hrun as (? & ? & [-> ->]%require_Some & Hrun).
  apply startEntry_writing in Hstart as [Hw Hfs2]; [|done].
  apply bind_Some in Hrun as (ok & w3 & [-> ->]%on_writer_Some & Hrun).
  apply bind_Some in Hrun as (? & ? & [Hok ->]%require_Some & Hrun).
  apply bind_Some in Hrun as (ok & w4 & Hfin' & Hrun).
  apply require_Some in Hrun as [-> ->].
  match type of Hok with (writeEntry ?bs ?wr).1 = true =>
    destruct (writeEntry bs wr) as [[] wr3] eqn:Ewr; [|done];
    pose proof (writeEntry_true _ _ _ _ _ _ Hw Ewr) as Hw3
  end.
  destruct (finishEntry_sealed _ _ _ (mkWorld _ _ _) _ _ Hw3 Hfin')
    as (_ & Hsealed & Hfs4).
  exists fin, parsed, table. split_and!; [done..| |].
  - rewrite app_nil_l in Hsealed. done.
  - rewrite Hfs4. simpl. done.
Qed.

(** The count-prefixed envelope of one compiled file. *)
Lemma envelope_one_success out file buffer w w' :
  writeHeaderAndBufferToWriter out file buffer w = (Some (), w') →
  sealed out (envelope [(file, buffer)]) (writer w) (writer w')
  ∧ fs w' = fs w.
Proof.
  intros Hrun. unfold writeHeaderAndBufferToWriter in Hrun.
  apply bind_Some in Hrun as (ok & w2 & Hstart & Hrun).
  apply bind_Some in Hrun as (? & ? & [-> ->]%require_Some & Hrun).
  apply startEntry_writing in Hstart as [Hw Hfs2]; [|done].
  apply bind_Some in Hrun as (e1 & w3 & Ha & Hrun).
  apply bind_Some in Hrun as (e2 & w4 & Hb & Hrun).
  apply bind_Some in Hrun as (e3 & w5 & Hc & Hrun).
  apply bind_Some in Hrun as (? & ? & [He3 ->]%require_Some & Hrun).
  apply negb_true_iff in He3 as ->.
  apply bind_Some in Hrun as (ok & w6 & Hfin & Hrun).
  apply require_Some in Hrun as [-> ->].
  destruct (out_write_ok _ _ _ _ Hc) as (-> & _).
  destruct (out_write_ok _ _ _ _ Hb) as (-> & _).
  destruct (out_write_writing _ _ _ _ _ _ _ Hw Ha) as (_ & Hw3 & Hfs3).
  destruct (out_write_writing _ _ _ _ _ _ _ Hw3 Hb) as (_ & Hw4 & Hfs4).
  destruct (out_write_writing _ _ _ _ _ _ _ Hw4 Hc) as (_ & Hw5 & Hfs5).
  destruct (finishEntry_sealed _ _ _ _ _ _ Hw5 Hfin) as (_ & Hsealed & Hfs6).
  split; [|congruence].
  unfold envelope, compiledFileRecord. simpl.
  rewrite app_nil_r. rewrite <-!app_assoc in Hsealed. done.
Qed.

Lemma envelope_mmap_success out file map w w' :
  writeHeaderAndMmapToWriter out file map w = (Some (), w') →
  sealed out (envelope [(file, map)]) (writer w) (writer w')
  ∧ fs w' = fs w.
Proof. apply envelope_one_success. Qed.

Lemma flatten_success context out doc e e' p body wr0 w w' :
  writing p body wr0 (writer w) →
  flattenXmlToOutStream context out doc e w = (Some e', w') →
  e' = false
  ∧ ∃ payload,
      flattens context doc (xml_file doc, payload)
      ∧ writing p (body ++ compiledFileRecord (xml_file doc) payload) wr0
                (writer w')
      ∧ fs w' = fs w.
Proof.
  intros Hw Hrun. unfold flattenXmlToOutStream in Hrun.
  apply bind_Some in Hrun as (payload & ? & [Hpay ->]%lift_Some & Hrun).
  apply bind_Some in Hrun as (e1 & w1 & Ha & Hrun).
  apply bind_Some in Hrun as (e2 & w2 & Hb & Hrun).
  apply bind_Some in Hrun as (? & ? & [He2 ->]%require_Some & Hrun).
  apply negb_true_iff in He2 as ->. apply ret_Some in Hrun as [<- ->].
  destruct (out_write_ok _ _ _ _ Hb) as (-> & _).
  destruct (out_write_writing _ _ _ _ _ _ _ Hw Ha) as (_ & Hw1 & Hfs1).
  destruct (out_write_writing _ _ _ _ _ _ _ Hw1 Hb) as (_ & Hw2 & Hfs2).
  split; [done|]. exists payload. split; [by split|]. split; [|congruence].
  unfold compiledFileRecord. by rewrite app_assoc.
Qed.

Lemma flattenInline_success context out docs e' p body wr0 w w' :
  writing p body wr0 (writer w) →
  flattenInlineDocuments context out docs false w = (Some e', w') →
  e' = false
  ∧ ∃ records,
      Forall2 (flattens context) docs records
      ∧ writing p
          (body ++ mjoin ((λ r, compiledFileRecord r.1 r.2) <$> records))
          wr0 (writer w')
      ∧ fs w' = fs w.
Proof.
  revert body w. induction docs as [|doc docs IH]; intros body w Hw Hrun.
  - apply ret_Some in Hrun as [<- ->]. split; [done|]. exists [].
    split; [constructor|]. split; [|done]. simpl. by rewrite app_nil_r.
  - simpl in Hrun.
    apply bind_Some in Hrun as (e1 & w1 & Hdoc & Hrun).
    destruct (flatten_success _ _ _ _ _ _ _ _ _ _ Hw Hdoc)
      as (-> & payload & Hfl & Hw1 & Hfs1).
    destruct (IH _ _ Hw1 Hrun) as (-> & records & Hall & Hw2 & Hfs2).
    split; [done|]. exists ((xml_file doc, payload) :: records).
    split; [by constructor|]. split; [|congruence].
    rewrite fmap_cons. simpl. by rewrite <-app_assoc in Hw2.
Qed.

(** The XML compiler: the count, the primary document, the extracted
    documents in the order of the extraction list. *)
Lemma compileXml_success context options pathData out w w' :
  compileXml context options pathData out w = (Some (), w') →
  ∃ fin inflated type collected primary inlineDocuments records,
    fs_read (fs w) (path (source pathData)) = inr fin
    ∧ xml_inflate fin (source pathData) = Some inflated
    ∧ parseResourceType (resourceDir pathData) = Some type
    ∧ XmlIdCollector_consume context
        (mkXmlResource
           (resourceFileOf type pathData
              (rf_exportedSymbols (xml_file inflated)))
           (xml_root inflated)) = Some collected
    ∧ InlineXmlFormatParser_consume context collected
      = Some (primary, inlineDocuments)
    ∧ Forall2 (flattens context) (primary :: inlineDocuments) records
    ∧ sealed out
        (le32 (uint32 (1 + Z.of_nat (length inlineDocuments)))
           ++ mjoin ((λ r, compiledFileRecord r.1 r.2) <$> records))
        (writer w) (writer w')
    ∧ fs w' = fs w.
Proof.
  intros Hrun. unfold compileXml in Hrun.
  apply bind_Some in Hrun as (? & w0 & [Hfs0 Hwr0]%when_report_Some & Hrun).
  apply bind_Some in Hrun as (fin & ? & [Hfin ->]%readInput_Some & Hrun).
  apply bind_Some in Hrun as (inflated & ? & [Hinf ->]%lift_Some & Hrun).
  apply bind_Some in Hrun as (type & ? & [Htype ->]%lift_Some & Hrun).
  cbv zeta in Hrun.
  apply bind_Some in Hrun as (collected & ? & [Hcol ->]%lift_Some & Hrun).
  apply bind_Some in Hrun as ([primary docs] & ? & [Hinl ->]%lift_Some & Hrun).
  apply bind_Some in Hrun as (ok & w2 & Hstart & Hrun).
  apply bind_Some in Hrun as (? & ? & [-> ->]%require_Some & Hrun).
  apply startEntry_writing in Hstart as [Hw Hfs2]; [|done].
  apply bind_Some in Hrun as (e1 & w3 & Ha & Hrun).
  apply bind_Some in Hrun as (e2 & w4 & Hb & Hrun).
  apply bind_Some in Hrun as (e3 & w5 & Hc & Hrun).
  apply bind_Some in Hrun as (ok & w6 & Hfin' & Hrun).
  apply require_Some in Hrun as [-> ->].
  assert (e1 = false) as ->.
  { destruct e1; [|done]. unfold flattenXmlToOutStream in Hb.
    apply bind_Some in Hb as (payload & ? & [_ ->]%lift_Some & Hb).
    apply bind_Some in Hb as (? & ? & [<- ->]%ret_Some & Hb).
    apply bind_Some in Hb as (? & ? & [<- ->]%ret_Some & Hb).
    by apply bind_Some in Hb as (? & ? & [? _]%require_Some & _). }
  destruct (out_write_writing _ _ _ _ _ _ _ Hw Ha) as (_ & Hw3 & Hfs3).
  destruct (flatten_success _ _ _ _ _ _ _ _ _ _ Hw3 Hb)
    as (-> & payload & Hfl & Hw4 & Hfs4).
  destruct (flattenInline_success _ _ _ _ _ _ _ _ _ Hw4 Hc)
    as (-> & records & Hall & Hw5 & Hfs5).
  destruct (finishEntry_sealed _ _ _ _ _ _ Hw5 Hfin') as (_ & Hsealed & Hfs6).
  exists fin, inflated, type, collected, primary, docs,
    ((xml_file primary, payload) :: records).
  rewrite <-Hfs0. do 5 (split; [done|]). split; [by constructor|].
  split; [|congruence].
  rewrite <-Hwr0. simpl. rewrite <-!app_assoc in Hsealed. done.
Qed.

(** The PNG compiler: which image is encoded, which buffer is enveloped. *)
Lemma compilePng_success context options pathData out w w' :
  compilePng context options pathData out w = (Some (), w') →
  ∃ type content image filter image' ninePatch crunched,
    parseResourceType (resourceDir pathData) = Some type
    ∧ fs_read (fs w) (path (source pathData)) = inr content
    ∧ readPng context (PngChunkFilter_new content) = (Some image, filter)
    ∧ (if decide (extension pathData = "9.png")
       then ∃ np, NinePatch_create image = inr np
                  ∧ removeBorder image = Some image'
                  ∧ ninePatch = Some np
       else image' = image ∧ ninePatch = None)
    ∧ writePng context image' ninePatch = Some crunched
    ∧ (verbose context = true →
       is_Some (Png_process (source pathData) content))
    ∧ sealed out
        (envelope
           [(resourceFileOf type pathData ExportedSymbols_empty,
             if bool_decide (is_Some ninePatch)
                || bool_decide (Z.of_nat (length crunched)
                                ≤ PngChunkFilter_ByteCount filter)
             then crunched
             else io_copy (PngChunkFilter_new content))])
        (writer w) (writer w')
    ∧ fs w' = fs w.
Proof.
  intros Hrun. unfold compilePng in Hrun.
  apply bind_Some in Hrun as (? & w0 & [Hfs0 Hwr0]%when_report_Some & Hrun).
  apply bind_Some in Hrun as (type & ? & [Htype ->]%lift_Some & Hrun).
  cbv zeta in Hrun.
  apply bind_Some in Hrun as (content & ? & [Hfin ->]%readInput_Some & Hrun).
  destruct (readPng context (PngChunkFilter_new content))
    as [oimage filter] eqn:Hread.
  apply bind_Some in Hrun as (image & ? & [-> ->]%lift_Some & Hrun).
  apply bind_Some in Hrun as ([image' ninePatch] & w1 & Hnp & Hrun).
  apply bind_Some in Hrun as (crunched & ? & [Hcr ->]%lift_Some & Hrun).
  apply bind_Some in Hrun as (buffer & w2 & Hbuf & Hrun).
  apply bind_Some in Hrun as (? & w3 & Hleg & Hrun).
  apply envelope_one_success in Hrun as [Hsealed Hfs'].
  assert ((if decide (extension pathData = "9.png")
           then ∃ np, NinePatch_create image = inr np
                      ∧ removeBorder image = Some image'
                      ∧ ninePatch = Some np
           else image' = image ∧ ninePatch = None)
          ∧ fs w1 = fs w0 ∧ writer w1 = writer w0) as (Hnine & Hfs1 & Hwr1).
  { case_decide.
    - destruct (NinePatch_create image) as [err|np].
      { by apply bind_Some in Hnp as (? & ? & _ & []%fail_Some). }
      apply bind_Some in Hnp as (stripped & ? & [Hstrip ->]%lift_Some & Hnp).
      apply bind_Some in Hnp as (? & ? & [? ?]%when_report_Some & Hnp).
      apply ret_Some in Hnp as [[= <- <-] ->]. eauto 10.
    - by apply ret_Some in Hnp as [[= <- <-] ->]. }
  assert (buffer = (if bool_decide (is_Some ninePatch)
                       || bool_decide (Z.of_nat (length crunched)
                                       ≤ PngChunkFilter_ByteCount filter)
                    then crunched
                    else io_copy (PngChunkFilter_new content))
          ∧ fs w2 = fs w1 ∧ writer w2 = writer w1) as (-> & Hfs2 & Hwr2).
  { destruct (bool_decide (is_Some ninePatch)
              || bool_decide (Z.of_nat (length crunched)
                              ≤ PngChunkFilter_ByteCount filter)).
    - by apply ret_Some in Hbuf as [<- ->].
    - apply bind_Some in Hbuf as (? & ? & [? ?]%when_report_Some & Hbuf).
      by apply ret_Some in Hbuf as [<- ->]. }
  assert ((verbose context = true →
           is_Some (Png_process (source pathData) content))
          ∧ fs w3 = fs w2 ∧ writer w3 = writer w2) as (Hlegacy & Hfs3 & Hwr3).
  { destruct (verbose context).
    - apply bind_Some in Hleg as (legacy & ? & [Hl ->]%lift_Some & Hleg).
      apply report_Some in Hleg as [? ?]. rewrite Hl. eauto.
    - by apply ret_Some in Hleg as [_ ->]. }
  exists type, content, image, filter, image', ninePatch, crunched.
  rewrite <-Hfs0. do 6 (split; [done|]).
  rewrite <-Hwr0, <-Hwr1, <-Hwr2, <-Hwr3. split; [done|]. congruence.
Qed.

(** With the verbose switch on, an input the legacy cruncher rejects does
    not compile, and the archive is as it was. *)
Lemma compilePng_legacy_failure context options pathData out w content :
  verbose context = true →
  fs_read (fs w) (path (source pathData)) = inr content →
  Png_process (source pathData) content = None →
  ∃ w', compilePng context options pathData out w = (None, w')
        ∧ writer w' = writer w.
Proof.
  intros Hv Hfin Hleg.
  destruct (compilePng context options pathData out w) as [[[]|] w'] eqn:Hrun.
  { apply compilePng_success in Hrun
      as (? & content' & ? & ? & ? & ? & ? & _ & Hfin' & _ & _ & _ & Hl & _).
    rewrite Hfin in Hfin'. injection Hfin' as <-.
    destruct (Hl Hv) as [? Hl']. congruence. }
  exists w'. split; [done|].
  unfold compilePng in Hrun. rewrite Hv in Hrun.
  apply bind_None in Hrun as [Hrun|(? & w0 & [Hfs0 Hwr0]%report_Some & Hrun)];
    [done|].
  apply bind_None in Hrun as [[= _ <-]|(type & ? & [_ ->]%lift_Some & Hrun)];
    [done|].
  cbv zeta in Hrun.
  apply bind_None in Hrun
    as [[_ ?]%readInput_None|(c & ? & [Hc ->]%readInput_Some & Hrun)];
    [congruence|].
  destruct (readPng context (PngChunkFilter_new c)) as [oimage filter].
  apply bind_None in Hrun as [[= _ <-]|(image & ? & [_ ->]%lift_Some & Hrun)];
    [done|].
  apply bind_None in Hrun as [Hnp|([image' np] & w1 & Hnp & Hrun)].
  { case_decide; [|done]. destruct (NinePatch_create image).
    - apply bind_None in Hnp as [?|(? & ? & [? ?]%report_Some & [= <-])];
        [done|congruence].
    - apply bind_None in Hnp as [[= _ <-]|(? & ? & [_ ->]%lift_Some & Hnp)];
        [done|].
      apply bind_None in Hnp as [?|(? & ? & [? ?]%report_Some & ?)]; done. }
  assert (writer w1 = writer w0) as Hwr1.
  { case_decide.
    - destruct (NinePatch_create image).
      { by apply bind_Some in Hnp as (? & ? & _ & []%fail_Some). }
      apply bind_Some in Hnp as (? & ? & [_ ->]%lift_Some & Hnp).
      apply bind_Some in Hnp as (? & ? & [? ?]%report_Some & Hnp).
      by apply ret_Some in Hnp as [_ ->].
    - by apply ret_Some in Hnp as [_ ->]. }
  apply bind_None in Hrun as [[= _ <-]|(cr & ? & [_ ->]%lift_Some & Hrun)];
    [congruence|].
  apply bind_None in Hrun as [Hbuf|(buffer & w2 & Hbuf & Hrun)].
  { destruct (_ || _); [done|].
    apply bind_None in Hbuf as [?|(? & ? & ? & ?)]; done. }
  assert (writer w2 = writer w1) as Hwr2.
  { destruct (_ || _).
    - by apply ret_Some in Hbuf as [_ ->].
    - apply bind_Some in Hbuf as (? & ? & [? ?]%report_Some & Hbuf).
      by apply ret_Some in Hbuf as [_ ->]. }
  rewrite Hfs0, Hfin in Hc. injection Hc as <-. rewrite Hleg in Hrun.
  apply bind_None in Hrun as [Hrun|(? & ? & Hrun & _)].
  - apply bind_None in Hrun as [[= <-]|(? & ? & [[=] _]%lift_Some & _)].
    congruence.
  - by apply bind_Some in Hrun as (? & ? & [[=] _]%lift_Some & _).
Qed.

(** The file compiler: the mapped bytes, enveloped verbatim. *)
Lemma compileFile_success context options pathData out w w' :
  compileFile context options pathData out w = (Some (), w') →
  ∃ type content,
    parseResourceType (resourceDir pathData) = Some type
    ∧ fs_read (fs w) (path (source pathData)) = inr content
    ∧ sealed out
        (envelope [(resourceFileOf type pathData ExportedSymbols_empty,
                    content)])
        (writer w) (writer w')
    ∧ fs w' = fs w.
Proof.
  intros Hrun. unfold compileFile in Hrun.
  apply bind_Some in Hrun as (? & w0 & [Hfs0 Hwr0]%when_report_Some & Hrun).
  apply bind_Some in Hrun as (type & ? & [Htype ->]%lift_Some & Hrun).
  cbv zeta in Hrun.
  apply bind_Some in Hrun as (content & ? & [Hfin ->]%readInput_Some & Hrun).
  apply envelope_mmap_success in Hrun as [Hsealed Hfs'].
  exists type, content. rewrite <-Hfs0, <-Hwr0. split_and!; congruence.
Qed.

End CompilerFacts.

(** ** The 32-bit count field *)

Section CountField.

Lemma Z_of_byte_of_Z v : Z_of_byte (byte_of_Z v) = Z.land v 255.
Proof.
  unfold Z_of_byte, byte_of_Z.
  assert (0 ≤ Z.land v 255 < 256) as Hb.
  { change 255 with (Z.ones 8). rewrite Z.land_ones by lia.
    apply Z.mod_pos_bound. lia. }
  destruct (Byte.of_N (Z.to_N (Z.land v 255))) as [b|] eqn:E.
  - apply Byte.to_of_N in E. simpl. rewrite E. lia.
  - apply Byte.of_N_None_iff in E. lia.
Qed.

Lemma testbit_255 n : 0 ≤ n → Z.testbit 255 n = bool_decide (n < 8).
Proof.
  intros Hn. change 255 with (Z.ones 8).
  rewrite Z.testbit_ones_nonneg by lia.
  case_bool_decide; lia.
Qed.

Lemma testbit_byte_at v k n :
  0 ≤ k → 0 ≤ n →
  Z.testbit (Z.shiftl (Z.land (Z.shiftr v k) 255) k) n
  = bool_decide (k ≤ n < k + 8) && Z.testbit v n.
Proof.
  intros Hk Hn. rewrite Z.shiftl_spec by lia.
  destruct (decide (n < k)) as [Hlt|Hge].
  - rewrite Z.testbit_neg_r by lia. by rewrite bool_decide_eq_false_2 by lia.
  - rewrite Z.land_spec, Z.shiftr_spec, testbit_255 by lia.
    replace (n - k + k) with n by lia. rewrite andb_comm. f_equal.
    apply bool_decide_ext. lia.
Qed.

Lemma testbit_above32 v n : 0 ≤ v < 2 ^ 32 → 32 ≤ n → Z.testbit v n = false.
Proof.
  intros Hv Hn. destruct (decide (v = 0)) as [->|Hv0].
  - apply Z.bits_0.
  - apply Z.bits_above_log2; [lia|].
    assert (Z.log2 v < 32) by (apply Z.log2_lt_pow2; lia). lia.
Qed.

(** The field reads back as the number written. *)
Lemma read_le32_le32 v rest :
  0 ≤ v < 2 ^ 32 → read_le32 (le32 v ++ rest) = Some v.
Proof.
  intros Hv. unfold le32, read_le32. simpl. f_equal.
  rewrite !Z_of_byte_of_Z.
  apply Z.bits_inj'. intros n Hn.
  rewrite !Z.lor_spec.
  rewrite (testbit_byte_at v 8), (testbit_byte_at v 16),
    (testbit_byte_at v 24) by lia.
  rewrite Z.land_spec, testbit_255 by lia.
  destruct (decide (32 ≤ n)) as [Hhi|Hlo].
  - rewrite (testbit_above32 v n) by done. by rewrite !andb_false_r.
  - destruct (Z.testbit v n); [|by rewrite !andb_false_r].
    rewrite !andb_true_r. simpl.
    repeat case_bool_decide; simpl; try done; lia.
Qed.

Lemma uint32_small v : 0 ≤ v < 2 ^ 32 → uint32 v = v.
Proof. intros. unfold uint32. by apply Z.mod_small. Qed.

Lemma uint32_range v : 0 ≤ uint32 v < 2 ^ 32.
Proof. unfold uint32. apply Z.mod_pos_bound. lia. Qed.

End CountField.

(** ** The entry each compiler writes *)

Section EntrySpec.
Context `{Passes} `{LegacyPng}.

Lemma arsc_entry_name pathData :
  buildIntermediateFilename (with_extension "arsc" pathData)
  = resourceDir pathData
      +:+ (if decide (configStr pathData = "") then ""
           else "-" +:+ configStr pathData)
      +:+ "_" +:+ name pathData +:+ ".arsc.flat".
Proof.
  unfold buildIntermediateFilename, with_extension. simpl.
  case_decide; by rewrite !app_assoc'.
Qed.




End EntrySpec.




(** ** The values parser's options *)

Section ParserOptionSpec.
Context `{Passes}.

(** The default translatable flag is decided by the descriptor's [name]
    alone: it is false exactly when the name contains the marker. *)
Lemma translatable_iff_name options pathData :
  translatable (parserOptions_of options pathData) = false
  ↔ Str.contains "donottranslate" (name pathData).
Proof.
  unfold parserOptions_of. simpl. rewrite bool_decide_eq_false.
  destruct (Str.find "donottranslate" (name pathData)) eqn:E.
  - split; [|done]. intros _. by eapply find_Some_contains.
  - apply find_None in E. tauto.
Qed.

End ParserOptionSpec.

(** C5.  The default translatable flag is computed from the descriptor's
    [name], the part of the filename before its first dot, not from the
    filename: [res/values/strings.donottranslate.xml] has a filename that
    contains [donottranslate] and is parsed with the default translatable
    flag left true. *)
Theorem translatable_default_ignores_the_extension `{Passes}
    (options : CompileOptions) :
  ∃ pathData filename,
    extractResourcePathData "res/values/strings.donottranslate.xml"
    = inr pathData
    ∧ last (Str.split sDirSep "res/values/strings.donottranslate.xml")
      = Some filename
    ∧ Str.contains "donottranslate" filename
    ∧ name pathData = "strings"
    ∧ translatable (parserOptions_of options pathData) = true.
Proof.
  eexists _, _. split; [reflexivity|]. split; [reflexivity|].
  split; [by exists "strings.", ".xml"|]. split; reflexivity.
Qed.

(** ** The driver *)

Section DriverSpec.
Context `{Passes} `{LegacyPng}.

(** The loop is the run of every input, with the flag raised by any
    failure and never lowered. *)
Lemma compileInputs_runEach context options inputData error w :
  compileInputs context options inputData error w
  = (error || existsb (λ r, negb r.2)
                      (runEach context options inputData w).1,
     (runEach context options inputData w).2).
Proof.
  revert error w. induction inputData as [|pathData rest IH]; intros error w.
  - simpl. by rewrite orb_false_r.
  - simpl. destruct (compileInput context options pathData w) as [r w1].
    destruct (runEach context options rest w1) as [rs w2] eqn:Hrest.
    destruct r as [[]|]; rewrite IH, Hrest; cbn.
    + done.
    + by rewrite orb_true_r.
Qed.

Lemma runEach_inputs context options inputData w :
  (runEach context options inputData w).1.*1 = inputData.
Proof.
  revert w. induction inputData as [|pathData rest IH]; intros w; [done|].
  simpl. destruct (compileInput context options pathData w) as [r w1].
  specialize (IH w1). destruct (runEach context options rest w1).
  cbn in *. by rewrite IH.
Qed.

(** A later input starts from the world its predecessors left, whether or
    not they failed. *)
Lemma runEach_app context options xs ys w :
  runEach context options (xs ++ ys) w
  = ((runEach context options xs w).1
       ++ (runEach context options ys (runEach context options xs w).2).1,
     (runEach context options ys (runEach context options xs w).2).2).
Proof.
  revert w. induction xs as [|x xs IH]; intros w.
  - simpl. by destruct (runEach context options ys w).
  - simpl. destruct (compileInput context options x w) as [r w1].
    rewrite IH. destruct (runEach context options xs w1) as [rs w2]. simpl.
    by destruct (runEach context options ys w2).
Qed.

Lemma collectPathData_ok args inputData acc :
  Forall2 (λ arg pathData, extractResourcePathData arg = inr pathData)
          args inputData →
  collectPathData args acc = inr (acc ++ inputData).
Proof.
  intros Hall. revert acc. induction Hall as [|arg pd args pds Hpd _ IH];
    intros acc; simpl.
  - by rewrite app_nil_r.
  - rewrite Hpd, IH. by rewrite <-app_assoc.
Qed.

Lemma collectPathData_bad args acc arg err :
  arg ∈ args → extractResourcePathData arg = inl err →
  ∃ arg' err',
    arg' ∈ args ∧ extractResourcePathData arg' = inl err'
    ∧ collectPathData args acc
      = inl (mkDiag Error None (err' +:+ " (" +:+ arg' +:+ ")")).
Proof.
  intros Hin Herr. revert acc.
  induction args as [|a args IH]; intros acc; [by apply elem_of_nil in Hin|].
  simpl. destruct (extractResourcePathData a) as [e|pd] eqn:Ea.
  - exists a, e. split; [left|done].
  - apply elem_of_cons in Hin as [->|Hin]; [congruence|].
    destruct (IH Hin (acc ++ [pd])) as (arg' & err' & ? & ? & ?).
    exists arg', err'. split; [by right|done].
Qed.

(** C6.  The driver runs every classified input, in order, each from the
    world its predecessor left and whether or not earlier ones failed; a
    failure only raises a flag.  The exit status is 1 if and only if at
    least one input failed, and 0 otherwise. *)
Theorem driver_runs_every_input (fs : FileSystem) (args : list string)
    (flags : ParsedFlags) (inputData : list ResourcePathData)
    (archiveWriter : ArchiveWriter) :
  Flags_parse args = Some flags →
  (match resDir (flag_options flags) with
   | Some _ =>
       flag_args flags = []
       ∧ loadInputFilesFromDir fs (flag_options flags) = inr inputData
       ∧ createZipFileArchiveWriter fs (outputPath (flag_options flags))
         = Some archiveWriter
   | None =>
       collectPathData (flag_args flags) [] = inr inputData
       ∧ createDirectoryArchiveWriter fs (outputPath (flag_options flags))
         = Some archiveWriter
   end) →
  let context := {| mVerbose := flag_verbose flags |} in
  let w := mkWorld fs archiveWriter [] in
  let results := (runEach context (flag_options flags) inputData w).1 in
  let final := (runEach context (flag_options flags) inputData w).2 in
  results.*1 = inputData
  ∧ compileInputs context (flag_options flags) inputData false w
    = (bool_decide (false ∈ results.*2), final)
  ∧ archive (compile fs args) = Some (writer final)
  ∧ reported (compile fs args) = diagnostics final
  ∧ (exit_code (compile fs args) = 1 ↔ false ∈ results.*2)
  ∧ (exit_code (compile fs args) = 0 ↔ false ∉ results.*2).
Proof.
  intros Hflags Henum context w results final.
  assert (existsb (λ r : ResourcePathData * bool, negb r.2) results
          = bool_decide (false ∈ results.*2)) as Hex.
  { generalize results. intros rs. apply eq_true_iff_eq.
    rewrite existsb_exists, bool_decide_eq_true, list_elem_of_fmap. split.
    - intros ([pd []] & Hin & Hneg); [done|]. exists (pd, false).
      by rewrite list_elem_of_In.
    - intros ([pd b] & Hb & Hin). cbn in Hb. subst b. exists (pd, false).
      by rewrite <-list_elem_of_In. }
  assert (compileInputs context (flag_options flags) inputData false w
          = (bool_decide (false ∈ results.*2), final))
    as Hloop.
  { rewrite compileInputs_runEach. fold results final. by rewrite Hex. }
  assert (compile fs args
          = mkResult (if bool_decide (false ∈ results.*2)
                      then 1 else 0)
                     (diagnostics final) (Some (writer final))) as Hcompile.
  { unfold compile. rewrite Hflags. fold context.
    destruct (resDir (flag_options flags)) as [rootDir|].
    - destruct Henum as (Hargs & Hload & Hzip).
      rewrite Hargs, Hload, Hzip. simpl. fold w. by rewrite Hloop.
    - destruct Henum as (Hcollect & Hdir).
      rewrite Hcollect, Hdir. fold w. by rewrite Hloop. }
  split; [apply runEach_inputs|]. split; [done|]. rewrite Hcompile. simpl.
  split; [done|]. split; [done|].
  case_bool_decide; split; split; (done || lia || tauto).
Qed.

(** C7.  In explicit mode every path given on the command line is
    classified before anything is compiled.  If one of them does not
    classify, the run ends with exit code 1 and that one diagnostic: no
    archive writer exists, so no entry is written, and no input file is
    read (the outcome is the same on every file system).  If all of them
    classify, the loop runs over the descriptors of all the paths. *)
Theorem explicit_mode_classifies_first (fs : FileSystem) (args : list string)
    (flags : ParsedFlags) :
  Flags_parse args = Some flags →
  resDir (flag_options flags) = None →
  ((∃ arg err, arg ∈ flag_args flags
               ∧ extractResourcePathData arg = inl err) →
   exit_code (compile fs args) = 1
   ∧ archive (compile fs args) = None
   ∧ (∃ arg err,
        arg ∈ flag_args flags ∧ extractResourcePathData arg = inl err
        ∧ reported (compile fs args)
          = [mkDiag Error None (err +:+ " (" +:+ arg +:+ ")")])
   ∧ ∀ fs', compile fs' args = compile fs args)
  ∧ (∀ inputData archiveWriter,
       Forall2 (λ arg pathData, extractResourcePathData arg = inr pathData)
               (flag_args flags) inputData →
       createDirectoryArchiveWriter fs (outputPath (flag_options flags))
       = Some archiveWriter →
       ∃ error w,
         compileInputs {| mVerbose := flag_verbose flags |}
           (flag_options flags) inputData false
           (mkWorld fs archiveWriter []) = (error, w)
         ∧ compile fs args
           = mkResult (if error then 1 else 0) (diagnostics w)
                      (Some (writer w))).
Proof.
  intros Hflags Hmode. split.
  - intros (arg & err & Hin & Herr).
    destruct (collectPathData_bad _ [] _ _ Hin Herr)
      as (arg' & err' & Hin' & Herr' & Hcollect).
    assert (∀ fs', compile fs' args
              = mkResult 1 [mkDiag Error None (err' +:+ " (" +:+ arg' +:+ ")")]
                         None) as Hcompile.
    { intros fs'. unfold compile. by rewrite Hflags, Hmode, Hcollect. }
    rewrite !Hcompile. simpl. split_and!; [done|done| |].
    + by exists arg', err'.
    + intros fs'. by rewrite Hcompile.
  - intros inputData archiveWriter Hall Hwriter.
    destruct (compileInputs {| mVerbose := flag_verbose flags |}
                (flag_options flags) inputData false
                (mkWorld fs archiveWriter [])) as [error w] eqn:Hloop.
    exists error, w. split; [done|].
    unfold compile. rewrite Hflags, Hmode.
    rewrite (collectPathData_ok _ _ [] Hall), Hwriter. simpl.
    by rewrite Hloop.
Qed.

End DriverSpec.

Lemma driver_runs_every_input_witness :
  ∃ flags inputData archiveWriter,
    Flags_parse (Toolchain := Demo.toolchain)
      ["-o"; "out"; "res/values/strings.xml"; "res/bogus/strings.xml";
       "res/layout/main.xml"] = Some flags
    ∧ collectPathData (H := Demo.toolchain) (flag_args flags) []
      = inr inputData
    ∧ createDirectoryArchiveWriter Demo.disk (outputPath (flag_options flags))
      = Some archiveWriter
    ∧ length inputData = 3%nat
    ∧ exit_code
        (compile (H0 := Demo.passes) (H1 := Demo.legacy) Demo.disk
           ["-o"; "out"; "res/values/strings.xml"; "res/bogus/strings.xml";
            "res/layout/main.xml"]) = 1
    ∧ (λ a : ArchiveWriter, (entries a).*1)
        <$> archive
              (compile (H0 := Demo.passes) (H1 := Demo.legacy) Demo.disk
                 ["-o"; "out"; "res/values/strings.xml";
                  "res/bogus/strings.xml"; "res/layout/main.xml"])
      = Some ["values_strings.arsc.flat"; "layout_main.xml.flat"].
Proof.
  eexists _, _, _.
  split; [reflexivity|]. split; [reflexivity|]. split; [reflexivity|].
  split; [reflexivity|].
  destruct (driver_runs_every_input
              (H0 := Demo.passes) (H1 := Demo.legacy) Demo.disk
              ["-o"; "out"; "res/values/strings.xml"; "res/bogus/strings.xml";
               "res/layout/main.xml"] _ _ _ eq_refl (conj eq_refl eq_refl))
    as (_ & _ & _ & _ & Hexit & _).
  split.
  - apply Hexit. apply (list_elem_of_lookup_2 _ 1). vm_compute. reflexivity.
  - vm_compute. reflexivity.
Defined.

Lemma explicit_mode_classifies_first_witness :
  ∃ flags,
    Flags_parse (Toolchain := Demo.toolchain)
      ["-o"; "out"; "res/drawable-bogus/a.png"; "res/values/strings.xml"]
    = Some flags
    ∧ resDir (flag_options flags) = None
    ∧ extractResourcePathData (H := Demo.toolchain) "res/drawable-bogus/a.png"
      = inl "invalid configuration 'bogus'"
    ∧ exit_code
        (compile (H0 := Demo.passes) (H1 := Demo.legacy) Demo.disk
           ["-o"; "out"; "res/drawable-bogus/a.png"; "res/values/strings.xml"])
      = 1
    ∧ archive
        (compile (H0 := Demo.passes) (H1 := Demo.legacy) Demo.disk
           ["-o"; "out"; "res/drawable-bogus/a.png"; "res/values/strings.xml"])
      = None.
Proof.
  eexists. split; [reflexivity|]. split; [reflexivity|]. split; [reflexivity|].
  destruct (explicit_mode_classifies_first
              (H0 := Demo.passes) (H1 := Demo.legacy) Demo.disk
              ["-o"; "out"; "res/drawable-bogus/a.png"; "res/values/strings.xml"]
              _ eq_refl eq_refl) as [Hbad _].
  destruct Hbad as (Hexit & Harchive & _); [|done].
  exists "res/drawable-bogus/a.png", "invalid configuration 'bogus'".
  split; [|reflexivity]. simpl. apply list_elem_of_here.
Defined.

(** ** The legacy cruncher *)

Section LegacySpec.
Context `{Passes}.


End LegacySpec.


(** ** Stripping the nine-patch border *)

Section BorderFacts.

Lemma memmove_Some {A} dst src n (l l' : list A) :
  memmove dst src n l = Some l' →
  0 ≤ n ∧ (src + Z.to_nat n ≤ length l)%nat
  ∧ (dst + Z.to_nat n ≤ length l)%nat
  ∧ l' = list_inserts dst (take (Z.to_nat n) (drop src l)) l.
Proof. unfold memmove. case_decide; [|done]. intros [= <-]. tauto. Qed.

Lemma memmove_lookup_in {A} dst src n (l l' : list A) j :
  memmove dst src n l = Some l' →
  (dst ≤ j < dst + Z.to_nat n)%nat →
  l' !! j = l !! (src + (j - dst))%nat.
Proof.
  intros (Hn & Hsrc & Hdst & ->)%memmove_Some Hj.
  assert (length (take (Z.to_nat n) (drop src l)) = Z.to_nat n) as Hlen.
  { rewrite length_take, length_drop. lia. }
  rewrite list_lookup_inserts by (rewrite ?Hlen; lia).
  rewrite lookup_take_lt by lia. by rewrite lookup_drop.
Qed.

Lemma memmove_lookup_out {A} dst src n (l l' : list A) j :
  memmove dst src n l = Some l' →
  (j < dst ∨ dst + Z.to_nat n ≤ j)%nat →
  l' !! j = l !! j.
Proof.
  intros (Hn & Hsrc & Hdst & ->)%memmove_Some Hj.
  assert (length (take (Z.to_nat n) (drop src l)) = Z.to_nat n) as Hlen.
  { rewrite length_take, length_drop. lia. }
  destruct Hj as [Hj|Hj].
  - by rewrite list_lookup_inserts_lt.
  - rewrite list_lookup_inserts_ge; [done|]. rewrite Hlen. lia.
Qed.

(** Bytes outside the rows that are shifted keep their value. *)
Lemma shiftRows_untouched rows width hs data data' j :
  shiftRows rows width hs data = Some data' →
  (∀ h row, h ∈ hs → rows !! h = Some row →
     (j < row ∨ row + Z.to_nat (width * 4) ≤ j)%nat) →
  data' !! j = data !! j.
Proof.
  revert data. induction hs as [|h hs IH]; intros data Hrun Hout; simpl in Hrun.
  - by injection Hrun as <-.
  - destruct (rows !! h) as [row|] eqn:Hrow; [|done]. simpl in Hrun.
    destruct (memmove row (row + 4) (width * 4) data) as [data1|] eqn:Hmove;
      [|done]. simpl in Hrun.
    rewrite (IH _ Hrun) by (intros; eapply Hout; [by right|done]).
    eapply memmove_lookup_out; [done|]. eapply Hout; [by left|done].
Qed.

(** Each shifted row holds what was one pixel to its right. *)
Lemma shiftRows_shifted rows width hs data data' h row c :
  NoDup hs →
  (∀ h1 h2 r1 r2, h1 ∈ hs → h2 ∈ hs → h1 ≠ h2 →
     rows !! h1 = Some r1 → rows !! h2 = Some r2 →
     (r1 + (Z.to_nat (width * 4) + 4) ≤ r2
      ∨ r2 + (Z.to_nat (width * 4) + 4) ≤ r1)%nat) →
  shiftRows rows width hs data = Some data' →
  h ∈ hs → rows !! h = Some row → (c < Z.to_nat (width * 4))%nat →
  data' !! (row + c)%nat = data !! (row + 4 + c)%nat.
Proof.
  intros Hnd Hdisj. revert data.
  induction hs as [|h0 hs IH]; intros data Hrun Hin Hrow Hc;
    [by apply elem_of_nil in Hin|].
  apply NoDup_cons in Hnd as [Hh0 Hnd]. simpl in Hrun.
  destruct (rows !! h0) as [row0|] eqn:Hrow0; [|done]. simpl in Hrun.
  destruct (memmove row0 (row0 + 4) (width * 4) data) as [data1|] eqn:Hmove;
    [|done]. simpl in Hrun.
  apply elem_of_cons in Hin as [->|Hin].
  - assert (row0 = row) as -> by congruence.
    rewrite (shiftRows_untouched _ _ _ _ _ _ Hrun).
    + rewrite (memmove_lookup_in _ _ _ _ _ _ Hmove) by lia. f_equal. lia.
    + intros h2 row2 Hin2 Hrow2.
      assert (h0 ≠ h2) as Hne by (intros ->; done).
      destruct (Hdisj h0 h2 row row2) as [?|?];
        [by left|by right|done|done|done|lia|lia].
  - assert (h0 ≠ h) as Hne by (intros ->; done).
    rewrite (IH Hnd) with (data := data1); [|..|done|done|done|done].
    + eapply memmove_lookup_out; [done|].
      destruct (Hdisj h0 h row0 row) as [?|?];
        [by left|by right|done|done|done|lia|lia].
    + intros h1 h2 r1 r2 ?????. apply (Hdisj h1 h2); try done; by right.
Qed.

(** What [removeBorder] returns: dimensions two less, the row pointers of
    rows 1 to height - 2, and in each of them the bytes of the columns
    1 to width - 2. *)
Lemma removeBorder_spec image stripped :
  removeBorder image = Some stripped →
  width stripped = width image - 2
  ∧ height stripped = height image - 2
  ∧ (∀ r, (r < Z.to_nat (height image - 2))%nat →
       rows stripped !! r = rows image !! S r
       ∧ is_Some (rows image !! S r))
  ∧ (rows_disjoint image →
     ∀ r c, (r < Z.to_nat (height image - 2))%nat →
       (c < 4 * Z.to_nat (width image - 2))%nat →
       pixel_byte stripped r c = pixel_byte image (S r) (c + 4)).
Proof.
  unfold removeBorder. cbv zeta.
  destruct (memmove 0 1 (height image - 2) (rows image)) as [rows'|] eqn:Hrows;
    [|done]. simpl.
  destruct (shiftRows rows' (width image - 2)
              (seq 0 (Z.to_nat (height image - 2))) (data image))
    as [data'|] eqn:Hdata; [|done]. simpl.
  intros [= <-]. simpl.
  pose proof (memmove_Some _ _ _ _ _ Hrows) as (Hh & Hlen & _ & _).
  assert (∀ r, (r < Z.to_nat (height image - 2))%nat →
            rows' !! r = rows image !! S r ∧ is_Some (rows image !! S r))
    as Hrow.
  { intros r Hr. split.
    - rewrite (memmove_lookup_in _ _ _ _ _ _ Hrows) by lia.
      f_equal. lia.
    - apply lookup_lt_is_Some. lia. }
  split; [done|]. split; [done|]. split; [done|].
  intros Hdisj r c Hr Hc. unfold pixel_byte. simpl.
  destruct (Hrow r Hr) as [Er [row Hrow']]. rewrite Er, Hrow'. simpl.
  assert (rows' !! r = Some row) as Hr' by congruence.
  destruct (decide (width image - 2 < 0)) as [Hneg|Hpos]; [lia|].
  assert (∀ h1 h2 r1 r2,
            h1 ∈ seq 0 (Z.to_nat (height image - 2)) →
            h2 ∈ seq 0 (Z.to_nat (height image - 2)) → h1 ≠ h2 →
            rows' !! h1 = Some r1 → rows' !! h2 = Some r2 →
            (r1 + (Z.to_nat ((width image - 2) * 4) + 4) ≤ r2
             ∨ r2 + (Z.to_nat ((width image - 2) * 4) + 4) ≤ r1)%nat)
    as Hapart.
  { intros h1 h2 r1 r2 Hh1%elem_of_seq Hh2%elem_of_seq Hne Hr1 Hr2.
    destruct (Hrow h1) as [E1 _]; [lia|]. destruct (Hrow h2) as [E2 _]; [lia|].
    rewrite E1 in Hr1. rewrite E2 in Hr2.
    destruct (Hdisj (S h1) (S h2) r1 r2) as [?|?]; [lia|done|done|lia|lia]. }
  rewrite (shiftRows_shifted _ _ _ _ _ r row c (NoDup_seq _ _) Hapart Hdata).
  - f_equal. lia.
  - apply elem_of_seq. lia.
  - done.
  - lia.
Qed.

End BorderFacts.

Section NinePatchSpec.
Context `{Passes} `{LegacyPng}.


End NinePatchSpec.

(** ** What the compilers leave alone *)

Section Frames.
Context `{Passes} `{LegacyPng}.

Lemma keeps_ret {A} (a : A) : keeps_entries (mret a : M A).
Proof. by intros w r w' [= _ <-]. Qed.

Lemma keeps_lift {A} (o : option A) : keeps_entries (lift o).
Proof. by intros w r w' [= _ <-]. Qed.

Lemma keeps_fail {A} : keeps_entries (fail (A := A)).
Proof. by intros w r w' [= _ <-]. Qed.

Lemma keeps_report l src msg : keeps_entries (report l src msg).
Proof. by intros w r w' [= _ <-]. Qed.

Lemma keeps_bind {A B} (m : M A) (k : A → M B) :
  keeps_entries m → (∀ a, keeps_entries (k a)) → keeps_entries (m ≫= k).
Proof.
  intros Hm Hk w r w' Hrun. unfold mbind, M_bind in Hrun.
  destruct (m w) as [[a|] w1] eqn:E.
  - rewrite (Hk _ _ _ _ Hrun). eauto.
  - injection Hrun as _ <-. eauto.
Qed.

Lemma keeps_when b (m : M unit) : keeps_entries m → keeps_entries (when b m).
Proof. destruct b; [done|]. intros _. apply keeps_ret. Qed.

Lemma keeps_require ok src msg : keeps_entries (require ok src msg).
Proof.
  destruct ok; [apply keeps_ret|].
  apply keeps_bind; [apply keeps_report|intros; apply keeps_fail].
Qed.

Lemma keeps_readInput src : keeps_entries (readInput src).
Proof.
  intros w r w'. unfold readInput.
  destruct (fs_read (fs w) (path src)); [|by intros [= _ <-]].
  apply (keeps_bind _ _ (keeps_report _ _ _) (λ _, keeps_fail)).
Qed.

Lemma keeps_startEntry p flags : keeps_entries (on_writer (startEntry p flags)).
Proof.
  intros w r w'. unfold on_writer, startEntry.
  destruct (current (writer w)); [by intros [= _ <-]|].
  destruct (refuses (writer w) p); by intros [= _ <-].
Qed.

Lemma keeps_writeEntry bs : keeps_entries (on_writer (writeEntry bs)).
Proof.
  intros w r w'. unfold on_writer, writeEntry.
  destruct (current (writer w)) as [[p body]|]; [|by intros [= _ <-]].
  case_decide; by intros [= _ <-].
Qed.

Lemma keeps_out_write bs e : keeps_entries (out_write bs e).
Proof.
  unfold out_write. destruct e; [apply keeps_ret|].
  apply keeps_bind; [apply keeps_writeEntry|intros; apply keeps_ret].
Qed.

Lemma cleanly_of_keeps {A} (m : M A) : keeps_entries m → fails_cleanly m.
Proof. intros Hm w w' Hrun. eauto. Qed.

Lemma cleanly_bind {A B} (m : M A) (k : A → M B) :
  keeps_entries m → (∀ a, fails_cleanly (k a)) → fails_cleanly (m ≫= k).
Proof.
  intros Hm Hk w w' Hrun. unfold mbind, M_bind in Hrun.
  destruct (m w) as [[a|] w1] eqn:E.
  - rewrite (Hk _ _ _ Hrun). eauto.
  - injection Hrun as <-. eauto.
Qed.

(** Sealing the entry is the last thing a compiler does: it either seals and
    succeeds, or fails with the archive as it was. *)
Lemma cleanly_finish src msg :
  fails_cleanly (on_writer finishEntry ≫= λ ok, require ok src msg).
Proof.
  intros w w' Hrun. unfold mbind, M_bind, on_writer, finishEntry in Hrun.
  destruct (current (writer w)) as [e|]; simpl in Hrun.
  - discriminate Hrun.
  - unfold mbind, M_bind, error, report, fail in Hrun. simpl in Hrun.
    by injection Hrun as <-.
Qed.

End Frames.

Create HintDb frames.
#[export] Hint Resolve keeps_ret keeps_lift keeps_fail keeps_report keeps_when
  keeps_require keeps_readInput keeps_startEntry keeps_writeEntry
  keeps_out_write cleanly_finish : frames.

(** Walk down a chain of binds whose steps seal nothing. *)
Ltac cleanly :=
  repeat first
    [ apply cleanly_finish
    | apply cleanly_bind; [solve [eauto with frames]|intros]
    | apply cleanly_of_keeps; solve [eauto with frames] ].

Section CompilersFailCleanly.
Context `{Passes} `{LegacyPng}.

Lemma keeps_flatten context out doc e :
  keeps_entries (flattenXmlToOutStream context out doc e).
Proof.
  unfold flattenXmlToOutStream, WriteCompiledFile, WriteData.
  repeat (apply keeps_bind; [eauto with frames|intros]). apply keeps_ret.
Qed.

Lemma keeps_flattenInline context out docs e :
  keeps_entries (flattenInlineDocuments context out docs e).
Proof.
  revert e. induction docs as [|doc docs IH]; intros e; simpl.
  - apply keeps_ret.
  - apply keeps_bind; [apply keeps_flatten|done].
Qed.

Lemma compileTable_fails_cleanly context options pathData out :
  fails_cleanly (compileTable context options pathData out).
Proof.
  unfold compileTable. cbv zeta.
  apply cleanly_bind; [eauto with frames|intros fin].
  apply cleanly_bind; [eauto with frames|intros parsed].
  apply cleanly_bind; [destruct (pseudolocalize options); eauto with frames|].
  intros table. cleanly.
Qed.

Lemma envelope_fails_cleanly out file buffer :
  fails_cleanly (writeHeaderAndBufferToWriter out file buffer).
Proof.
  unfold writeHeaderAndBufferToWriter, WriteLittleEndian32, WriteCompiledFile,
    WriteData. cleanly.
Qed.

Lemma compileXml_fails_cleanly context options pathData out :
  fails_cleanly (compileXml context options pathData out).
Proof.
  unfold compileXml, resourceTypeOf, note, WriteLittleEndian32.
  do 4 (apply cleanly_bind; [eauto with frames|intros]). cbv zeta.
  apply cleanly_bind; [eauto with frames|intros].
  apply cleanly_bind; [eauto with frames|intros [primary docs]].
  do 3 (apply cleanly_bind; [eauto with frames|intros]).
  apply cleanly_bind; [apply keeps_flatten|intros].
  apply cleanly_bind; [apply keeps_flattenInline|intros].
  apply cleanly_finish.
Qed.

Lemma compilePng_fails_cleanly context options pathData out :
  fails_cleanly (compilePng context options pathData out).
Proof.
  unfold compilePng, resourceTypeOf, note.
  do 2 (apply cleanly_bind; [eauto with frames|intros]). cbv zeta.
  apply cleanly_bind; [eauto with frames|intros content].
  destruct (readPng context (PngChunkFilter_new content)) as [oimage filter].
  apply cleanly_bind; [eauto with frames|intros image].
  apply cleanly_bind.
  { case_decide; [|eauto with frames].
    destruct (NinePatch_create image);
      repeat (apply keeps_bind; [eauto with frames|intros]); eauto with frames. }
  intros [image' ninePatch].
  apply cleanly_bind; [eauto with frames|intros crunched].
  apply cleanly_bind.
  { destruct (_ || _); [eauto with frames|].
    apply keeps_bind; [eauto with frames|intros; apply keeps_ret]. }
  intros buffer. apply cleanly_bind; [|intros; apply envelope_fails_cleanly].
  destruct (verbose context); [|eauto with frames].
  apply keeps_bind; [eauto with frames|intros; apply keeps_report].
Qed.

Lemma compileFile_fails_cleanly context options pathData out :
  fails_cleanly (compileFile context options pathData out).
Proof.
  unfold compileFile, resourceTypeOf, note.
  do 2 (apply cleanly_bind; [eauto with frames|intros]). cbv zeta.
  apply cleanly_bind; [eauto with frames|intros].
  apply envelope_fails_cleanly.
Qed.

Lemma compileInput_fails_cleanly context options pathData :
  fails_cleanly (compileInput context options pathData).
Proof.
  unfold compileInput, note.
  apply cleanly_bind; [eauto with frames|intros _].
  case_decide; [apply compileTable_fails_cleanly|]. cbv zeta.
  destruct (parseResourceType (resourceDir pathData)) as [type|].
  - case_decide; [|apply compileFile_fails_cleanly].
    case_decide; [apply compileXml_fails_cleanly|].
    destruct (_ || _);
      [apply compilePng_fails_cleanly|apply compileFile_fails_cleanly].
  - apply cleanly_of_keeps. unfold error.
    apply keeps_bind; [apply keeps_report|intros; apply keeps_fail].
Qed.

End CompilersFailCleanly.

Section EntriesFollowInputs.
Context `{Passes} `{LegacyPng}.

(** A compiled input has added exactly one entry, under the name the driver
    built for it. *)
Lemma compileInput_seals context options pathData w w' :
  compileInput context options pathData w = (Some (), w') →
  ∃ body,
    entries (writer w') = entries (writer w) ++ [(entryName pathData, body)].
Proof.
  intros Hrun. unfold compileInput in Hrun.
  apply bind_Some in Hrun as (? & w0 & [_ Hwr0]%when_report_Some & Hrun).
  rewrite <-Hwr0. unfold entryName. case_decide.
  - apply compileTable_success in Hrun
      as (? & ? & ? & _ & _ & _ & [??]%sealed_entries & _). eauto.
  - cbv zeta in Hrun.
    destruct (parseResourceType (resourceDir pathData)) as [type|];
      [|by apply bind_Some in Hrun as (? & ? & _ & []%fail_Some)].
    assert (compileFile context options pathData
              (buildIntermediateFilename pathData) w0 = (Some (), w') →
            ∃ body, entries (writer w')
                    = entries (writer w0)
                        ++ [(buildIntermediateFilename pathData, body)])
      as Hfile.
    { intros (? & ? & _ & _ & [??]%sealed_entries & _)%compileFile_success.
      eauto. }
    case_decide; [|by apply Hfile].
    case_decide.
    { apply compileXml_success in Hrun
        as (? & ? & ? & ? & ? & ? & ? & _ & _ & _ & _ & _ & _
            & [??]%sealed_entries & _). eauto. }
    destruct (_ || _); [|by apply Hfile].
    apply compilePng_success in Hrun
      as (? & ? & ? & ? & ? & ? & ? & _ & _ & _ & _ & _ & _
          & [??]%sealed_entries & _).
    eauto.
Qed.


End EntriesFollowInputs.

(** ** What the compilers report *)

Section Reports.
Context `{Passes} `{LegacyPng}.

Lemma tidy_silent {A} chatty (m : M A) :
  (∀ w r w', m w = (r, w') → diagnostics w' = diagnostics w) →
  reports_tidily chatty m.
Proof.
  intros Hm w r w' Hrun. exists []. rewrite app_nil_r.
  split; [eauto|]. by intros _.
Qed.

Lemma tidy_ret {A} chatty (a : A) : reports_tidily chatty (mret a : M A).
Proof. apply tidy_silent. by intros w r w' [= _ <-]. Qed.

Lemma tidy_lift {A} chatty (o : option A) : reports_tidily chatty (lift o).
Proof. apply tidy_silent. by intros w r w' [= _ <-]. Qed.

Lemma tidy_on_writer chatty f : reports_tidily chatty (on_writer f).
Proof.
  apply tidy_silent. intros w r w'. unfold on_writer.
  destruct (f (writer w)). by intros [= _ <-].
Qed.

(** An error is always followed by the failure of the computation. *)
Lemma tidy_error_fail {A} chatty src msg :
  reports_tidily chatty (error src msg ≫= λ _, fail (A := A)).
Proof.
  intros w r w' [= <- <-]. eexists. split; [reflexivity|]. by intros [??].
Qed.

Lemma tidy_note chatty (b : bool) src msg :
  (b = true → chatty = true) →
  reports_tidily chatty (when b (note src msg)).
Proof.
  intros Hb w r w'. destruct b; simpl.
  - intros [= <- <-]. eexists. split; [reflexivity|]. intros _.
    split; [by repeat constructor|]. intros ->. by specialize (Hb eq_refl).
  - apply tidy_ret.
Qed.

Lemma tidy_bind {A B} chatty (m : M A) (k : A → M B) :
  reports_tidily chatty m → (∀ a, reports_tidily chatty (k a)) →
  reports_tidily chatty (m ≫= k).
Proof.
  intros Hm Hk w r w' Hrun. unfold mbind, M_bind in Hrun.
  destruct (m w) as [[a|] w1] eqn:E.
  - destruct (Hm _ _ _ E) as (ds1 & E1 & Hds1).
    destruct (Hk _ _ _ _ Hrun) as (ds2 & E2 & Hds2).
    exists (ds1 ++ ds2). rewrite E2, E1, app_assoc. split; [done|]. intros Hr.
    destruct Hds1 as [Hn1 Hq1]; [done|]. destruct (Hds2 Hr) as [Hn2 Hq2].
    split; [by apply Forall_app|].
    intros Hc. by rewrite Hq1, Hq2.
  - injection Hrun as <- <-. destruct (Hm _ _ _ E) as (ds1 & E1 & _).
    exists ds1. split; [done|]. by intros [??].
Qed.

Lemma tidy_require chatty ok src msg :
  reports_tidily chatty (require ok src msg).
Proof. destruct ok; [apply tidy_ret|apply tidy_error_fail]. Qed.

Lemma tidy_readInput chatty src : reports_tidily chatty (readInput src).
Proof.
  intros w r w'. unfold readInput.
  destruct (fs_read (fs w) (path src)); [apply tidy_error_fail|].
  intros [= <- <-]. exists []. rewrite app_nil_r. split; [done|]. by intros _.
Qed.

Lemma tidy_out_write chatty bs e : reports_tidily chatty (out_write bs e).
Proof.
  unfold out_write. destruct e; [apply tidy_ret|].
  apply tidy_bind; [apply tidy_on_writer|intros; apply tidy_ret].
Qed.

Lemma tidy_louder {A} chatty chatty' (m : M A) :
  (chatty = true → chatty' = true) →
  reports_tidily chatty m → reports_tidily chatty' m.
Proof.
  intros Hc Hm w r w' Hrun. destruct (Hm _ _ _ Hrun) as (ds & E & Hds).
  exists ds. split; [done|]. intros Hr. destruct (Hds Hr) as [Hn Hq].
  split; [done|]. intros ->. apply Hq. by destruct chatty; [specialize (Hc eq_refl)|].
Qed.

End Reports.

#[export] Hint Resolve tidy_ret tidy_lift tidy_on_writer tidy_error_fail
  tidy_require tidy_readInput tidy_out_write : frames.
#[export] Hint Extern 1 (reports_tidily _ (when _ (note _ _))) =>
  apply tidy_note; tauto : frames.

(** Walk down a chain of binds, discharging each step. *)
Ltac tidily :=
  repeat first
    [ apply tidy_bind; [solve [eauto with frames]|intros]
    | solve [eauto with frames] ].

Section CompilersReport.
Context `{Passes} `{LegacyPng}.

Lemma compileTable_tidy chatty context options pathData out :
  reports_tidily chatty (compileTable context options pathData out).
Proof.
  unfold compileTable. cbv zeta.
  do 2 (apply tidy_bind; [eauto with frames|intros]).
  apply tidy_bind; [destruct (pseudolocalize options); eauto with frames|].
  intros. tidily.
Qed.

Lemma envelope_tidy chatty out file buffer :
  reports_tidily chatty (writeHeaderAndBufferToWriter out file buffer).
Proof.
  unfold writeHeaderAndBufferToWriter, WriteLittleEndian32, WriteCompiledFile,
    WriteData. tidily.
Qed.

Lemma flatten_tidy chatty context out doc e :
  reports_tidily chatty (flattenXmlToOutStream context out doc e).
Proof.
  unfold flattenXmlToOutStream, WriteCompiledFile, WriteData. tidily.
Qed.

Lemma flattenInline_tidy chatty context out docs e :
  reports_tidily chatty (flattenInlineDocuments context out docs e).
Proof.
  revert e. induction docs as [|doc docs IH]; intros e; simpl.
  - apply tidy_ret.
  - apply tidy_bind; [apply flatten_tidy|done].
Qed.

Lemma compileXml_tidy context options pathData out :
  reports_tidily (verbose context) (compileXml context options pathData out).
Proof.
  unfold compileXml, resourceTypeOf, WriteLittleEndian32.
  do 4 (apply tidy_bind; [eauto with frames|intros]). cbv zeta.
  apply tidy_bind; [eauto with frames|intros].
  apply tidy_bind; [eauto with frames|intros [primary docs]].
  do 3 (apply tidy_bind; [eauto with frames|intros]).
  apply tidy_bind; [apply flatten_tidy|intros].
  apply tidy_bind; [apply flattenInline_tidy|intros]. tidily.
Qed.

Lemma compilePng_tidy context options pathData out :
  reports_tidily (verbose context) (compilePng context options pathData out).
Proof.
  unfold compilePng, resourceTypeOf.
  do 2 (apply tidy_bind; [eauto with frames|intros]). cbv zeta.
  apply tidy_bind; [eauto with frames|intros content].
  destruct (readPng context (PngChunkFilter_new content)) as [oimage filter].
  apply tidy_bind; [eauto with frames|intros image].
  apply tidy_bind.
  { case_decide; [|eauto with frames].
    destruct (NinePatch_create image); [eauto with frames|]. tidily. }
  intros [image' ninePatch].
  apply tidy_bind; [eauto with frames|intros crunched].
  apply tidy_bind; [destruct (_ || _); tidily|].
  intros buffer. apply tidy_bind; [|intros; apply envelope_tidy].
  destruct (verbose context) eqn:Hv; [|eauto with frames].
  apply tidy_bind; [eauto with frames|intros].
  change (note ?s ?m) with (when true (note s m)). by apply tidy_note.
Qed.

Lemma compileFile_tidy context options pathData out :
  reports_tidily (verbose context) (compileFile context options pathData out).
Proof.
  unfold compileFile, resourceTypeOf.
  do 2 (apply tidy_bind; [eauto with frames|intros]). cbv zeta.
  apply tidy_bind; [eauto with frames|intros]. apply envelope_tidy.
Qed.

Lemma compileInput_tidy context options pathData :
  reports_tidily (verbose context || options_verbose options)
                 (compileInput context options pathData).
Proof.
  unfold compileInput.
  apply tidy_bind; [apply tidy_note; intros ->; apply orb_true_r|intros _].
  assert (verbose context = true
          → verbose context || options_verbose options = true) as Hv
    by (by intros ->).
  case_decide; [apply compileTable_tidy|]. cbv zeta.
  destruct (parseResourceType (resourceDir pathData)) as [type|];
    [|apply tidy_error_fail].
  case_decide; [|by eapply tidy_louder, compileFile_tidy].
  case_decide; [by eapply tidy_louder, compileXml_tidy|].
  destruct (bool_decide _ || bool_decide _);
    [by eapply tidy_louder, compilePng_tidy
    |by eapply tidy_louder, compileFile_tidy].
Qed.

End CompilersReport.

Section DriverReports.
Context `{Passes} `{LegacyPng}.

Lemma compileInputs_clean context options inputData w w' :
  compileInputs context options inputData false w = (false, w') →
  ∃ ds, diagnostics w' = diagnostics w ++ ds
        ∧ Forall (λ d, dm_level d = Note) ds
        ∧ (verbose context || options_verbose options = false → ds = []).
Proof.
  revert w. induction inputData as [|pathData rest IH]; intros w; simpl.
  - intros [= <-]. exists []. by rewrite app_nil_r.
  - destruct (compileInput context options pathData w) as [[[]|] w1] eqn:Hrun.
    + intros Hrest.
      destruct (compileInput_tidy _ _ _ _ _ _ Hrun) as (ds1 & E1 & Hds1).
      destruct Hds1 as [Hn1 Hq1]; [done|].
      destruct (IH _ Hrest) as (ds2 & E2 & Hn2 & Hq2).
      exists (ds1 ++ ds2). rewrite E2, E1, app_assoc.
      split; [done|]. split; [by apply Forall_app|].
      intros Hc. by rewrite Hq1, Hq2.
    + rewrite compileInputs_runEach. simpl. done.
Qed.


End DriverReports.


(** ** More about the classifier *)

Section ClassifierMore.
Context `{Toolchain}.

Lemma split_short sep s :
  (length (Str.split sep s) < 2)%nat ↔ ¬ Str.has_char sep s.
Proof.
  split.
  - intros Hlen Hs. destruct (has_char_split _ _ Hs) as (a & b & -> & Ha).
    rewrite split_app in Hlen by done. simpl in Hlen.
    pose proof (split_nonempty sep b). destruct (Str.split sep b); [done|].
    simpl in Hlen. lia.
  - intros Hs. rewrite split_no_sep by done. simpl. lia.
Qed.

Lemma dir_parts_inr dir type qual cfg :
  dir_parts dir = inr (type, qual, cfg) →
  (¬ Str.has_char "-" dir ∧ type = dir ∧ qual = ""
   ∧ cfg = ConfigDescription_default)
  ∨ (dir = type +:+ "-" +:+ qual ∧ ¬ Str.has_char "-" type
     ∧ ConfigDescription_parse qual = Some cfg).
Proof.
  unfold dir_parts. destruct (Str.find_char "-" dir) as [n|] eqn:E.
  - destruct (find_char_Some _ _ _ E) as (a & b & -> & Ha & <-). cbv zeta.
    rewrite substr_right, substr_left.
    destruct (ConfigDescription_parse b) eqn:Hb; [|done].
    intros [= <- <- <-]. by right.
  - intros [= <- <- <-]. left. by apply find_char_None in E.
Qed.

Lemma file_parts_inv filename :
  (¬ Str.has_char "." filename ∧ file_parts filename = (filename, ""))
  ∨ (∃ a b, filename = a +:+ "." +:+ b ∧ ¬ Str.has_char "." a
            ∧ file_parts filename = (a, b)).
Proof.
  destruct (Str.find_char "." filename) as [n|] eqn:E.
  - destruct (find_char_Some _ _ _ E) as (a & b & -> & Ha & <-).
    right. exists a, b. by rewrite file_parts_dot.
  - left. unfold file_parts. rewrite E. by apply find_char_None in E.
Qed.

(** X3.  The classifier answers "bad resource path" exactly for the paths that
    have no directory separator, that is, fewer than two components. *)
Theorem bad_resource_path_iff (path : string) :
  extractResourcePathData path = inl "bad resource path"
  ↔ ¬ Str.has_char sDirSep path.
Proof.
  rewrite <-split_short. split.
  - intros Hbad. destruct (decide (length (Str.split sDirSep path) < 2)%nat)
      as [?|Hlen]; [done|].
    destruct (split_last_two _ Hlen) as (parts & dir & filename & Hs).
    rewrite (extract_last_two _ _ _ _ Hs) in Hbad.
    unfold dir_parts in Hbad.
    destruct (Str.find_char "-" dir); [|done]. cbv zeta in Hbad.
    destruct (ConfigDescription_parse _); [done|]. discriminate Hbad.
  - intros Hlen. unfold extractResourcePathData. cbv zeta.
    by rewrite decide_True.
Qed.

(** X4.  A directory token whose text after the first dash is not a configuration
    makes the classification fail, and the message quotes that text. *)
Theorem invalid_configuration_is_reported (path : string)
    (parts : list string) (type qual filename : string) :
  Str.split sDirSep path = parts ++ [type +:+ "-" +:+ qual; filename] →
  ¬ Str.has_char "-" type →
  ConfigDescription_parse qual = None →
  extractResourcePathData path
  = inl ("invalid configuration '" +:+ qual +:+ "'").
Proof.
  intros Hs Htype Hqual. rewrite (extract_last_two _ _ _ _ Hs).
  unfold dir_parts. change (type +:+ "-" +:+ qual) with (type +:+ String "-" qual).
  rewrite find_char_first by done. cbv zeta.
  by rewrite substr_right, Hqual.
Qed.

(** X5.  Only the last two components of a path matter: two paths that end in the
    same directory token and filename classify alike, up to the source that
    the descriptor remembers. *)
Theorem classification_uses_last_two_components (path path' : string)
    (parts parts' : list string) (dir filename : string) :
  Str.split sDirSep path = parts ++ [dir; filename] →
  Str.split sDirSep path' = parts' ++ [dir; filename] →
  extractResourcePathData path'
  = match extractResourcePathData path with
    | inl err => inl err
    | inr pd =>
        inr (mkResourcePathData (Source_of_path path') (resourceDir pd)
               (name pd) (extension pd) (configStr pd) (config pd))
    end.
Proof.
  intros Hs Hs'.
  rewrite (extract_last_two _ _ _ _ Hs), (extract_last_two _ _ _ _ Hs').
  by destruct (dir_parts dir) as [?|[[??]?]].
Qed.

(** X6.  What a descriptor says about the path it came from: the source is the
    path; the directory token is the type, or the type, a dash and the
    qualifier text, which parsed to the configuration; the filename is the
    name, or the name, a dot and the extension; the type has no dash and the
    name no dot. *)
Theorem descriptor_recovers_components (path : string)
    (parts : list string) (dir filename : string) (pd : ResourcePathData) :
  Str.split sDirSep path = parts ++ [dir; filename] →
  extractResourcePathData path = inr pd →
  source pd = Source_of_path path
  ∧ ¬ Str.has_char "-" (resourceDir pd)
  ∧ ¬ Str.has_char "." (name pd)
  ∧ ((dir = resourceDir pd ∧ configStr pd = ""
      ∧ config pd = ConfigDescription_default)
     ∨ (dir = resourceDir pd +:+ "-" +:+ configStr pd
        ∧ ConfigDescription_parse (configStr pd) = Some (config pd)))
  ∧ ((filename = name pd ∧ extension pd = "")
     ∨ filename = name pd +:+ "." +:+ extension pd).
Proof.
  intros Hs. rewrite (extract_last_two _ _ _ _ Hs).
  destruct (dir_parts dir) as [?|[[type qual] cfg]] eqn:Hdir; [done|].
  intros [= <-]. simpl. split; [done|].
  apply dir_parts_inr in Hdir.
  destruct (file_parts_inv filename) as [[Hnodot ->]|(a & b & -> & Ha & ->)];
    simpl;
    (destruct Hdir as [(Hnodash & -> & -> & ->)|(-> & Hnodash & Hparse)];
     split_and!; auto).
Qed.

End ClassifierMore.

Lemma invalid_configuration_is_reported_witness :
  extractResourcePathData (H := Demo.toolchain) "res/drawable-bogus/a.png"
  = inl "invalid configuration 'bogus'".
Proof.
  apply (invalid_configuration_is_reported (H := Demo.toolchain)
           "res/drawable-bogus/a.png" ["res"] "drawable" "bogus" "a.png").
  - reflexivity.
  - by apply find_char_None.
  - reflexivity.
Defined.

Lemma classification_uses_last_two_components_witness :
  extractResourcePathData (H := Demo.toolchain) "app/src/main/res/layout-land/main.xml"
  = inr (mkResourcePathData (H := Demo.toolchain)
           (Source_of_path "app/src/main/res/layout-land/main.xml")
           "layout" "main" "xml" "land" "land").
Proof.
  rewrite (classification_uses_last_two_components (H := Demo.toolchain)
             "res/layout-land/main.xml" "app/src/main/res/layout-land/main.xml"
             ["res"] ["app"; "src"; "main"; "res"] "layout-land" "main.xml"
             eq_refl eq_refl).
  reflexivity.
Defined.

Lemma descriptor_recovers_components_witness :
  ∃ pd,
    extractResourcePathData (H := Demo.toolchain) "res/values-fr/strings.xml"
    = inr pd
    ∧ "values-fr" = resourceDir pd +:+ "-" +:+ configStr pd
    ∧ "strings.xml" = name pd +:+ "." +:+ extension pd.
Proof.
  eexists. split; [reflexivity|].
  destruct (descriptor_recovers_components (H := Demo.toolchain)
              "res/values-fr/strings.xml" ["res"] "values-fr" "strings.xml" _
              eq_refl eq_refl) as (_ & _ & _ & Hdir & Hfile).
  split.
  - destruct Hdir as [(Hd & _)|(Hd & _)]; [discriminate Hd|exact Hd].
  - destruct Hfile as [(Hf & _)|Hf]; [discriminate Hf|exact Hf].
Defined.

(** ** Directory enumeration *)

Section EnumerationFacts.
Context `{Toolchain}.

Lemma loadLeafEntries_spec prefixPath leaves acc out :
  loadLeafEntries prefixPath leaves acc = inr out →
  ∃ new, out = acc ++ new
         ∧ Forall2 (λ p pathData, extractResourcePathData p = inr pathData)
             (file_appendPath prefixPath
                <$> filter (λ leaf, isHidden leaf = false) leaves) new.
Proof.
  revert acc. induction leaves as [|leaf leaves IH]; intros acc; simpl.
  - intros [= <-]. exists []. by rewrite app_nil_r.
  - destruct (isHidden leaf) eqn:Hh.
    + rewrite filter_cons_False by (by rewrite Hh). apply IH.
    + rewrite filter_cons_True by done.
      destruct (extractResourcePathData (file_appendPath prefixPath leaf))
        as [?|pathData] eqn:Hpd; [done|].
      intros (new & -> & Hnew)%IH. exists (pathData :: new).
      rewrite <-app_assoc. split; [done|]. by constructor.
Qed.

Lemma loadDirEntries_spec fs rootDir dirEntries acc out :
  loadDirEntries fs rootDir dirEntries acc = inr out →
  ∃ new, out = acc ++ new
         ∧ Forall2 (λ p pathData, extractResourcePathData p = inr pathData)
             (enumeratedPaths fs rootDir dirEntries) new.
Proof.
  unfold enumeratedPaths.
  revert acc. induction dirEntries as [|entry rest IH]; intros acc; simpl.
  - intros [= <-]. exists []. rewrite app_nil_r. split; [done|]. constructor.
  - destruct (isHidden entry) eqn:Hh.
    { rewrite filter_cons_False by (rewrite Hh; intros [? _]; done). apply IH. }
    destruct (fs_isDirectory fs (file_appendPath rootDir entry)) eqn:Hd; simpl.
    2:{ rewrite filter_cons_False by (intros [_ ?]; congruence). apply IH. }
    rewrite filter_cons_True by done.
    destruct (fs_readdir fs (file_appendPath rootDir entry)) as [?|leaves] eqn:Hl;
      [done|].
    destruct (loadLeafEntries (file_appendPath rootDir entry) leaves acc)
      as [?|out1] eqn:Hleaves; [done|].
    destruct (loadLeafEntries_spec _ _ _ _ Hleaves) as (new1 & -> & Hnew1).
    intros (new2 & -> & Hnew2)%IH. exists (new1 ++ new2).
    rewrite <-app_assoc. split; [done|].
    rewrite bind_cons. apply Forall2_app; [|done].
    unfold leafPaths. by rewrite Hl.
Qed.

(** X7.  When the walk of the resource directory succeeds, its result is the
    classification of exactly the visible children of the visible
    subdirectories of the root, in listing order: hidden entries (those whose
    name starts with a dot) and children of the root that are not directories
    contribute nothing. *)
Theorem directory_walk_yields_visible_leaves (fs : FileSystem)
    (options : CompileOptions) (inputData : list ResourcePathData) :
  loadInputFilesFromDir fs options = inr inputData →
  ∃ dirEntries,
    fs_readdir fs (default "" (resDir options)) = inr dirEntries
    ∧ Forall2 (λ p pathData, extractResourcePathData p = inr pathData)
        (enumeratedPaths fs (default "" (resDir options)) dirEntries)
        inputData.
Proof.
  unfold loadInputFilesFromDir. cbv zeta.
  destruct (fs_readdir fs (default "" (resDir options))) as [?|dirEntries];
    [done|].
  intros (new & -> & Hnew)%loadDirEntries_spec. by exists dirEntries.
Qed.

Lemma loadLeafEntries_progress prefixPath leaves acc :
  Forall (λ p, ∃ pathData, extractResourcePathData p = inr pathData)
    (file_appendPath prefixPath
       <$> filter (λ leaf, isHidden leaf = false) leaves) →
  ∃ out, loadLeafEntries prefixPath leaves acc = inr out.
Proof.
  revert acc. induction leaves as [|leaf leaves IH]; intros acc; simpl.
  - by exists acc.
  - destruct (isHidden leaf) eqn:Hh.
    + rewrite filter_cons_False by (by rewrite Hh). apply IH.
    + rewrite filter_cons_True by done. rewrite fmap_cons.
      intros [[pathData ->] Hrest]%Forall_cons. by apply IH.
Qed.

Lemma loadDirEntries_progress fs rootDir dirEntries acc :
  Forall (λ entry,
            isHidden entry = false →
            fs_isDirectory fs (file_appendPath rootDir entry) = true →
            ∃ leaves, fs_readdir fs (file_appendPath rootDir entry) = inr leaves)
         dirEntries →
  Forall (λ p, ∃ pathData, extractResourcePathData p = inr pathData)
    (enumeratedPaths fs rootDir dirEntries) →
  ∃ out, loadDirEntries fs rootDir dirEntries acc = inr out.
Proof.
  unfold enumeratedPaths. intros Hlist. revert acc.
  induction Hlist as [|entry rest Hentry _ IH]; intros acc; simpl.
  - by exists acc.
  - destruct (isHidden entry) eqn:Hh.
    { rewrite filter_cons_False by (rewrite Hh; intros [? _]; done). apply IH. }
    destruct (fs_isDirectory fs (file_appendPath rootDir entry)) eqn:Hd; simpl.
    2:{ rewrite filter_cons_False by (intros [_ ?]; congruence). apply IH. }
    rewrite filter_cons_True by done. rewrite bind_cons.
    intros [Hleaves Hrest]%Forall_app.
    destruct Hentry as [leaves Hl]; [done..|].
    unfold leafPaths in Hleaves. rewrite Hl in Hleaves |- *.
    destruct (loadLeafEntries_progress _ _ acc Hleaves) as [out1 ->].
    by apply IH.
Qed.

(** X8.  The walk of the resource directory succeeds as soon as the root can be
    listed, every visible subdirectory of it can be listed, and every visible
    child of those classifies.  Hidden entries and plain files at the root are
    never listed or classified, so they cannot make the walk fail. *)
Theorem directory_walk_succeeds (fs : FileSystem) (options : CompileOptions)
    (dirEntries : list string) :
  let rootDir := default "" (resDir options) in
  fs_readdir fs rootDir = inr dirEntries →
  Forall (λ entry,
            isHidden entry = false →
            fs_isDirectory fs (file_appendPath rootDir entry) = true →
            ∃ leaves, fs_readdir fs (file_appendPath rootDir entry) = inr leaves)
         dirEntries →
  Forall (λ p, ∃ pathData, extractResourcePathData p = inr pathData)
    (enumeratedPaths fs rootDir dirEntries) →
  ∃ inputData, loadInputFilesFromDir fs options = inr inputData.
Proof.
  intros rootDir Hroot Hlist Hleaves. unfold loadInputFilesFromDir. cbv zeta.
  fold rootDir. rewrite Hroot. by apply loadDirEntries_progress.
Qed.

End EnumerationFacts.

Lemma directory_walk_yields_visible_leaves_witness :
  ∃ dirEntries,
    fs_readdir Tree.disk "res" = inr dirEntries
    ∧ Forall2 (λ p pathData,
                 extractResourcePathData (H := Demo.toolchain) p = inr pathData)
        (enumeratedPaths (H := Demo.toolchain) Tree.disk "res" dirEntries)
        [Demo.classified "res/values/strings.xml";
         Demo.classified "res/layout/main.xml"].
Proof.
  apply (directory_walk_yields_visible_leaves (H := Demo.toolchain)
           Tree.disk Tree.options).
  vm_compute. reflexivity.
Defined.

Lemma directory_walk_succeeds_witness :
  ∃ inputData,
    loadInputFilesFromDir (H := Demo.toolchain) Tree.disk Tree.options
    = inr inputData.
Proof.
  apply (directory_walk_succeeds (H := Demo.toolchain) Tree.disk Tree.options
           ["values"; ".git"; "layout"; "README"]).
  - reflexivity.
  - repeat constructor; intros _ Hdir; try discriminate Hdir; by eexists.
  - repeat constructor; by eexists.
Defined.

(** ** Inputs that are turned away before anything is written *)

Section Rejections.
Context `{Passes} `{LegacyPng}.

Lemma bind_run_ok {A B} (m : M A) (k : A → M B) w a w1 :
  m w = (Some a, w1) → (m ≫= k) w = k a w1.
Proof. unfold mbind, M_bind. by intros ->. Qed.

Lemma bind_run_fail {A B} (m : M A) (k : A → M B) w w1 :
  m w = (None, w1) → (m ≫= k) w = (None, w1).
Proof. unfold mbind, M_bind. by intros ->. Qed.

Lemma readInput_fail src w err :
  fs_read (fs w) (path src) = inl err →
  readInput src w
  = (None, mkWorld (fs w) (writer w)
             (diagnostics w ++ [mkDiag Error (Some src) err])).
Proof. unfold readInput. by intros ->. Qed.

Lemma when_note_run (b : bool) src msg w :
  when b (note src msg) w
  = (Some (), mkWorld (fs w) (writer w)
                (diagnostics w ++ (if b then [mkDiag Note src msg] else []))).
Proof. destruct b, w; simpl; by rewrite ?app_nil_r. Qed.

(** X9.  An input from a directory that is not [values] and names no resource type
    fails with the one error "invalid file path '<source>'", which carries no
    source of its own; the file is not opened and the archive writer is not
    touched. *)
Theorem unknown_resource_type_is_rejected (context : CompileContext)
    (options : CompileOptions) (pathData : ResourcePathData) (w : World) :
  resourceDir pathData ≠ "values" →
  parseResourceType (resourceDir pathData) = None →
  compileInput context options pathData w
  = (None,
     mkWorld (fs w) (writer w)
       (diagnostics w
          ++ (if options_verbose options
              then [mkDiag Note (Some (source pathData)) "processing"] else [])
          ++ [mkDiag Error None
                ("invalid file path '" +:+ Source_show (source pathData)
                 +:+ "'")])).
Proof.
  intros Hdir Htype. unfold compileInput.
  rewrite (bind_run_ok _ _ _ _ _ (when_note_run _ _ _ _)).
  rewrite decide_False by done. rewrite Htype.
  unfold mbind, M_bind, error, report, fail. simpl. by rewrite <-app_assoc.
Qed.

(** X10.  An input that cannot be opened fails with one error that carries the
    input's source and the system's text.  Whatever compiler the input is
    dispatched to, only notes come before that error and the archive writer
    is not touched. *)
Theorem unreadable_input_is_reported (context : CompileContext)
    (options : CompileOptions) (pathData : ResourcePathData) (w : World)
    (err : string) :
  fs_read (fs w) (path (source pathData)) = inl err →
  resourceDir pathData = "values"
    ∨ is_Some (parseResourceType (resourceDir pathData)) →
  ∃ notes,
    Forall (λ d, dm_level d = Note) notes
    ∧ compileInput context options pathData w
      = (None,
         mkWorld (fs w) (writer w)
           (diagnostics w ++ notes
              ++ [mkDiag Error (Some (source pathData)) err])).
Proof.
  intros Hread Htype. unfold compileInput.
  rewrite (bind_run_ok _ _ _ _ _ (when_note_run _ _ _ _)).
  set (w1 := mkWorld _ _ _).
  assert (fs_read (fs w1) (path (source pathData)) = inl err) as Hread1 by done.
  set (first := if options_verbose options
                then [mkDiag Note (Some (source pathData)) "processing"]
                else []) in *.
  assert (Forall (λ d, dm_level d = Note) first) as Hfirst.
  { subst first. destruct (options_verbose options); repeat constructor. }
  set (second kind := if verbose context
                      then [mkDiag Note (Some (source pathData)) kind]
                      else []).
  assert (∀ kind, Forall (λ d, dm_level d = Note) (second kind)) as Hsecond.
  { intros kind. subst second. simpl.
    destruct (verbose context); repeat constructor. }
  case_decide as Hdir.
  - exists first. split; [done|].
    unfold compileTable. cbv zeta.
    rewrite (bind_run_fail _ _ _ _ (readInput_fail _ _ _ Hread1)).
    subst w1. simpl. by rewrite <-app_assoc.
  - destruct Htype as [?|[type Htype]]; [done|]. rewrite Htype.
    set (P := λ m : M unit,
           ∃ notes,
             Forall (λ d, dm_level d = Note) notes
             ∧ m w1
               = (None,
                  mkWorld (fs w) (writer w)
                    (diagnostics w ++ notes
                       ++ [mkDiag Error (Some (source pathData)) err]))).
    assert (P (compileFile context options pathData
                 (buildIntermediateFilename pathData))) as Hfile.
    { exists (first ++ second "compiling file").
      split; [by apply Forall_app|]. unfold compileFile.
      rewrite (bind_run_ok _ _ _ _ _ (when_note_run _ _ _ _)).
      unfold resourceTypeOf. rewrite Htype.
      rewrite (bind_run_ok _ _ _ type _ eq_refl).
      erewrite bind_run_fail; [|by apply readInput_fail].
      subst w1. simpl. by rewrite <-!app_assoc. }
    assert (P (compileXml context options pathData
                 (buildIntermediateFilename pathData))) as Hxml.
    { exists (first ++ second "compiling XML").
      split; [by apply Forall_app|]. unfold compileXml.
      rewrite (bind_run_ok _ _ _ _ _ (when_note_run _ _ _ _)).
      erewrite bind_run_fail; [|by apply readInput_fail].
      subst w1. simpl. by rewrite <-!app_assoc. }
    assert (P (compilePng context options pathData
                 (buildIntermediateFilename pathData))) as Hpng.
    { exists (first ++ second "compiling PNG").
      split; [by apply Forall_app|]. unfold compilePng.
      rewrite (bind_run_ok _ _ _ _ _ (when_note_run _ _ _ _)).
      unfold resourceTypeOf. rewrite Htype.
      rewrite (bind_run_ok _ _ _ type _ eq_refl).
      erewrite bind_run_fail; [|by apply readInput_fail].
      subst w1. simpl. by rewrite <-!app_assoc. }
    destruct (decide (type ≠ kRaw)); [|done].
    destruct (decide (extension pathData = "xml")); [done|].
    by destruct (_ || _).
Qed.

(** X11.  A [9.png] input whose decoded image is not a valid nine-patch fails with
    the nine-patch parser's message, reported without a source; the border is
    not stripped, nothing is encoded and the archive writer is not touched. *)
Theorem nine_patch_rejection_is_reported (context : CompileContext)
    (options : CompileOptions) (pathData : ResourcePathData) (out : string)
    (w : World) (type : ResourceType) (content : list byte) (image : Image)
    (filter : PngChunkFilter) (err : string) :
  extension pathData = "9.png" →
  parseResourceType (resourceDir pathData) = Some type →
  fs_read (fs w) (path (source pathData)) = inr content →
  readPng context (PngChunkFilter_new content) = (Some image, filter) →
  NinePatch_create image = inl err →
  compilePng context options pathData out w
  = (None,
     mkWorld (fs w) (writer w)
       (diagnostics w
          ++ (if verbose context
              then [mkDiag Note (Some (source pathData)) "compiling PNG"]
              else [])
          ++ [mkDiag Error None err])).
Proof.
  intros Hext Htype Hread Hpng Hnine. unfold compilePng.
  rewrite (bind_run_ok _ _ _ _ _ (when_note_run _ _ _ _)).
  unfold resourceTypeOf. rewrite Htype.
  rewrite (bind_run_ok _ _ _ type _ eq_refl). cbv zeta.
  set (w1 := mkWorld _ _ _).
  assert (readInput (source pathData) w1 = (Some content, w1)) as Hin.
  { unfold readInput. subst w1. simpl. by rewrite Hread. }
  rewrite (bind_run_ok _ _ _ _ _ Hin). rewrite Hpng.
  rewrite (bind_run_ok _ _ _ image _ eq_refl).
  rewrite decide_True by done. rewrite Hnine.
  subst w1. unfold mbind, M_bind, error, report, fail. simpl.
  by rewrite <-app_assoc.
Qed.


End Rejections.

Lemma unknown_resource_type_is_rejected_witness :
  compileInput (H0 := Demo.passes) (H1 := Demo.legacy) Demo.quiet Demo.options
    (Demo.classified "res/menus/main.xml") Demo.start
  = (None,
     mkWorld Demo.disk (writer Demo.start)
       [mkDiag Error None "invalid file path 'res/menus/main.xml'"]).
Proof.
  apply (unknown_resource_type_is_rejected (H0 := Demo.passes)
           (H1 := Demo.legacy) Demo.quiet Demo.options
           (Demo.classified "res/menus/main.xml") Demo.start).
  - vm_compute. discriminate.
  - reflexivity.
Defined.

Lemma unreadable_input_is_reported_witness :
  ∃ notes,
    Forall (λ d, dm_level d = Note) notes
    ∧ compileInput (H0 := Demo.passes) (H1 := Demo.legacy) Demo.chatty
        Demo.options (Demo.classified "res/layout/missing.xml") Demo.start
      = (None,
         mkWorld Demo.disk (writer Demo.start)
           ([] ++ notes
              ++ [mkDiag Error
                    (Some (Source_of_path "res/layout/missing.xml"))
                    "No such file or directory"])).
Proof.
  apply (unreadable_input_is_reported (H0 := Demo.passes) (H1 := Demo.legacy)
           Demo.chatty Demo.options
           (Demo.classified "res/layout/missing.xml") Demo.start
           "No such file or directory").
  - reflexivity.
  - right. by eexists.
Defined.

Lemma nine_patch_rejection_is_reported_witness :
  compilePng (H0 := Demo.passes) (H1 := Demo.legacy) Demo.quiet Demo.options
    (Demo.classified "res/drawable/thin.9.png") "drawable_thin.9.png.flat"
    Tree.start
  = (None,
     mkWorld Tree.disk (writer Tree.start)
       [mkDiag Error None "ninepatch image must be at least 3x3"]).
Proof.
  eapply (nine_patch_rejection_is_reported (H0 := Demo.passes)
            (H1 := Demo.legacy) Demo.quiet Demo.options
            (Demo.classified "res/drawable/thin.9.png")
            "drawable_thin.9.png.flat" Tree.start Demo.Drawable Demo.png_2x1);
    vm_compute; reflexivity.
Defined.


(** ** When a compiler succeeds *)

Section Progress.
Context `{Passes} `{LegacyPng}.

Lemma start_run p w :
  current (writer w) = None → refuses (writer w) p = false →
  ∃ w1, on_writer (startEntry p 0) w = (Some true, w1)
        ∧ writing p [] (writer w) (writer w1)
        ∧ fs w1 = fs w ∧ diagnostics w1 = diagnostics w.
Proof.
  intros Hidle Hname. unfold on_writer, startEntry. rewrite Hidle, Hname.
  eexists. split; [done|]. simpl. split_and!; try done.
  unfold writing. split_and!; try done; [simpl; lia|].
  f_equal. simpl. lia.
Qed.

Lemma write_run p body wr0 bs w :
  writing p body wr0 (writer w) →
  (length (body ++ bs) ≤ room wr0)%nat →
  ∃ w1, out_write bs false w = (Some false, w1)
        ∧ writing p (body ++ bs) wr0 (writer w1)
        ∧ fs w1 = fs w ∧ diagnostics w1 = diagnostics w.
Proof.
  intros (Hidle & Hname & Hroom & Hwr) Hfits. rewrite length_app in Hfits.
  unfold out_write, mbind, M_bind, on_writer, writeEntry. rewrite Hwr. simpl.
  rewrite decide_True by lia. simpl.
  eexists. split; [done|]. simpl. split_and!; try done.
  unfold writing. rewrite length_app. split_and!; try done.
  f_equal. lia.
Qed.

Lemma finish_run p body wr0 w :
  writing p body wr0 (writer w) →
  ∃ w1, on_writer finishEntry w = (Some true, w1)
        ∧ sealed p body wr0 (writer w1)
        ∧ fs w1 = fs w ∧ diagnostics w1 = diagnostics w.
Proof.
  intros (Hidle & Hname & Hroom & Hwr).
  unfold on_writer, finishEntry. rewrite Hwr. simpl.
  eexists. split; [done|]. simpl. split_and!; try done.
Qed.

Lemma bind_require_true {B} src msg (k : unit → M B) w :
  (require true src msg ≫= k) w = k () w.
Proof. reflexivity. Qed.

Lemma envelope_one file buffer :
  envelope [(file, buffer)]
  = (le32 (uint32 1)
       ++ WriteCompiledFile_bytes (serializeCompiledFileToPb file))
      ++ WriteData_bytes buffer.
Proof.
  unfold envelope, compiledFileRecord.
  cbn [fmap list_fmap mjoin list_join length fst snd].
  change (Z.of_nat 1) with 1. by rewrite app_nil_r, app_assoc.
Qed.

Lemma envelope_one_progress out file buffer w :
  current (writer w) = None → refuses (writer w) out = false →
  (length (envelope [(file, buffer)]) ≤ room (writer w))%nat →
  ∃ w', writeHeaderAndBufferToWriter out file buffer w = (Some (), w')
        ∧ sealed out (envelope [(file, buffer)]) (writer w) (writer w')
        ∧ fs w' = fs w ∧ diagnostics w' = diagnostics w.
Proof.
  intros Hidle Hname Hroom. rewrite envelope_one in *.
  destruct (start_run out w Hidle Hname) as (w1 & R1 & W1 & F1 & D1).
  destruct (write_run _ _ _ (le32 (uint32 1)) _ W1) as (w2 & R2 & W2 & F2 & D2).
  { rewrite !length_app in *. simpl in *. lia. }
  destruct (write_run _ _ _
              (WriteCompiledFile_bytes (serializeCompiledFileToPb file)) _ W2)
    as (w3 & R3 & W3 & F3 & D3).
  { rewrite !length_app in *. simpl in *. lia. }
  destruct (write_run _ _ _ (WriteData_bytes buffer) _ W3)
    as (w4 & R4 & W4 & F4 & D4); [done|].
  destruct (finish_run _ _ _ _ W4) as (w5 & R5 & S5 & F5 & D5).
  exists w5. split; [|split_and!; [done|congruence..]].
  unfold writeHeaderAndBufferToWriter.
  rewrite (bind_run_ok _ _ _ _ _ R1), bind_require_true.
  unfold WriteLittleEndian32, WriteCompiledFile, WriteData.
  rewrite (bind_run_ok _ _ _ _ _ R2), (bind_run_ok _ _ _ _ _ R3),
    (bind_run_ok _ _ _ _ _ R4).
  change (negb false) with true. rewrite bind_require_true.
  by rewrite (bind_run_ok _ _ _ _ _ R5).
Qed.

Lemma world_eq (w w' : World) :
  fs w' = fs w → writer w' = writer w → diagnostics w' = diagnostics w →
  w' = w.
Proof. destruct w, w'; simpl; congruence. Qed.



Lemma flatten_progress context out doc record p body wr0 w :
  writing p body wr0 (writer w) →
  flattens context doc record →
  (length (body ++ compiledFileRecord record.1 record.2) ≤ room wr0)%nat →
  ∃ w1, flattenXmlToOutStream context out doc false w = (Some false, w1)
        ∧ writing p (body ++ compiledFileRecord record.1 record.2) wr0
            (writer w1)
        ∧ fs w1 = fs w ∧ diagnostics w1 = diagnostics w.
Proof.
  intros W0 [Hfile Hpayload] Hroom. unfold compiledFileRecord in *.
  rewrite Hfile in *. rewrite app_assoc in Hroom |- *.
  destruct (write_run _ _ _
              (WriteCompiledFile_bytes
                 (serializeCompiledFileToPb (xml_file doc))) _ W0)
    as (w1 & R1 & W1 & F1 & D1).
  { rewrite !length_app in *. lia. }
  destruct (write_run _ _ _ (WriteData_bytes record.2) _ W1)
    as (w2 & R2 & W2 & F2 & D2); [done|].
  exists w2. split; [|split_and!; [done|congruence..]].
  unfold flattenXmlToOutStream. rewrite Hpayload.
  rewrite (bind_run_ok _ _ _ record.2 _ eq_refl).
  unfold WriteCompiledFile, WriteData.
  by rewrite (bind_run_ok _ _ _ _ _ R1), (bind_run_ok _ _ _ _ _ R2).
Qed.

Lemma flattenInline_progress context out docs records p body wr0 w :
  writing p body wr0 (writer w) →
  Forall2 (flattens context) docs records →
  (length (body ++ mjoin ((λ r, compiledFileRecord r.1 r.2) <$> records))
   ≤ room wr0)%nat →
  ∃ w1, flattenInlineDocuments context out docs false w = (Some false, w1)
        ∧ writing p
            (body ++ mjoin ((λ r, compiledFileRecord r.1 r.2) <$> records))
            wr0 (writer w1)
        ∧ fs w1 = fs w ∧ diagnostics w1 = diagnostics w.
Proof.
  intros W0 Hdocs. revert body w W0.
  induction Hdocs as [|doc record docs records Hdoc _ IH]; intros body w W0.
  - intros _. exists w. simpl. by rewrite app_nil_r.
  - rewrite fmap_cons. cbn [mjoin list_join]. rewrite app_assoc. intros Hroom.
    destruct (flatten_progress context out doc record _ _ _ _ W0 Hdoc)
      as (w1 & R1 & W1 & F1 & D1).
    { rewrite !length_app in *. lia. }
    destruct (IH _ _ W1 Hroom) as (w2 & R2 & W2 & F2 & D2).
    exists w2. split; [|split_and!; [done|congruence..]].
    simpl. by rewrite (bind_run_ok _ _ _ _ _ R1).
Qed.


End Progress.

(** ** The archive only grows *)

Section Growth.
Context `{Passes} `{LegacyPng}.

Lemma grows_pure {A} (m : M A) :
  (∀ w, writer (m w).2 = writer w) → extends_archive m.
Proof.
  intros Hm w r w' Hrun. specialize (Hm w). rewrite Hrun in Hm. simpl in Hm.
  by rewrite Hm.
Qed.

Lemma grows_ret {A} (a : A) : extends_archive (mret a : M A).
Proof. by apply grows_pure. Qed.

Lemma grows_lift {A} (o : option A) : extends_archive (lift o).
Proof. by apply grows_pure. Qed.

Lemma grows_fail {A} : extends_archive (fail (A := A)).
Proof. by apply grows_pure. Qed.

Lemma grows_report l src msg : extends_archive (report l src msg).
Proof. by apply grows_pure. Qed.

Lemma grows_bind {A B} (m : M A) (k : A → M B) :
  extends_archive m → (∀ a, extends_archive (k a)) → extends_archive (m ≫= k).
Proof.
  intros Hm Hk w r w' Hrun. unfold mbind, M_bind in Hrun.
  destruct (m w) as [[a|] w1] eqn:E.
  - destruct (Hm _ _ _ E) as [K1 P1], (Hk _ _ _ _ Hrun) as [K2 P2].
    split; [congruence|by etrans].
  - injection Hrun as <- <-. eauto.
Qed.

Lemma grows_when b (m : M unit) : extends_archive m → extends_archive (when b m).
Proof. destruct b; [done|]. intros _. apply grows_ret. Qed.

Lemma grows_require ok src msg : extends_archive (require ok src msg).
Proof.
  destruct ok; [apply grows_ret|].
  apply grows_bind; [apply grows_report|intros; apply grows_fail].
Qed.

Lemma grows_readInput src : extends_archive (readInput src).
Proof.
  apply grows_pure. intros w. unfold readInput.
  by destruct (fs_read (fs w) (path src)).
Qed.

Lemma grows_startEntry p flags : extends_archive (on_writer (startEntry p flags)).
Proof.
  intros w r w'. unfold on_writer, startEntry.
  destruct (current (writer w)); [by intros [= _ <-]|].
  destruct (refuses (writer w) p); by intros [= _ <-].
Qed.

Lemma grows_writeEntry bs : extends_archive (on_writer (writeEntry bs)).
Proof.
  intros w r w'. unfold on_writer, writeEntry.
  destruct (current (writer w)) as [[p body]|]; [|by intros [= _ <-]].
  case_decide; by intros [= _ <-].
Qed.

Lemma grows_finishEntry : extends_archive (on_writer finishEntry).
Proof.
  intros w r w'. unfold on_writer, finishEntry.
  destruct (current (writer w)) as [e|]; intros [= _ <-]; simpl; [|done].
  split; [done|]. by apply prefix_app_r.
Qed.

Lemma grows_out_write bs e : extends_archive (out_write bs e).
Proof.
  unfold out_write. destruct e; [apply grows_ret|].
  apply grows_bind; [apply grows_writeEntry|intros; apply grows_ret].
Qed.

End Growth.

Create HintDb growth.
#[export] Hint Resolve grows_ret grows_lift grows_fail grows_report grows_when
  grows_require grows_readInput grows_startEntry grows_writeEntry
  grows_finishEntry grows_out_write : growth.

(** Walk down a chain of binds and branches. *)
Ltac grows :=
  repeat first
    [ solve [eauto with growth]
    | apply grows_bind; [|intros]
    | case_decide
    | case_match ].

Section CompilersGrow.
Context `{Passes} `{LegacyPng}.

Lemma grows_flatten context out doc e :
  extends_archive (flattenXmlToOutStream context out doc e).
Proof.
  unfold flattenXmlToOutStream, WriteCompiledFile, WriteData. grows.
Qed.

Lemma grows_flattenInline context out docs e :
  extends_archive (flattenInlineDocuments context out docs e).
Proof.
  revert e. induction docs as [|doc docs IH]; intros e; simpl.
  - apply grows_ret.
  - apply grows_bind; [apply grows_flatten|done].
Qed.

Lemma grows_envelope out file buffer :
  extends_archive (writeHeaderAndBufferToWriter out file buffer).
Proof.
  unfold writeHeaderAndBufferToWriter, WriteLittleEndian32, WriteCompiledFile,
    WriteData. grows.
Qed.

Lemma grows_compileInput context options pathData :
  extends_archive (compileInput context options pathData).
Proof.
  pose proof grows_flatten. pose proof grows_flattenInline.
  pose proof grows_envelope.
  unfold compileInput, compileTable, compileXml, compilePng, compileFile,
    writeHeaderAndMmapToWriter, resourceTypeOf, note, error,
    WriteLittleEndian32, WriteCompiledFile, WriteData.
  cbv zeta. grows.
Qed.

Lemma kind_compileInputs context options inputData error w :
  aw_kind (writer (compileInputs context options inputData error w).2)
  = aw_kind (writer w).
Proof.
  revert error w. induction inputData as [|pathData rest IH]; intros error w.
  - done.
  - simpl.
    destruct (compileInput context options pathData w) as [[[]|] w1] eqn:E;
      destruct (grows_compileInput _ _ _ _ _ _ E) as [K1 _];
      rewrite IH; done.
Qed.


(** X17.  The kind of container follows the mode of the run: a run over a
    resource directory writes a zip archive, a run over files named on the
    command line writes a directory of entries. *)
Theorem mode_selects_container (fs : FileSystem) (args : list string)
    (flags : ParsedFlags) (out : ArchiveWriter) :
  Flags_parse args = Some flags →
  archive (compile fs args) = Some out →
  aw_kind out = match flag_dir flags with
                | Some _ => ZipFileArchive
                | None => DirectoryArchive
                end.
Proof.
  intros Hflags. unfold compile. rewrite Hflags. cbv zeta.
  change (resDir (flag_options flags)) with (flag_dir flags).
  destruct (flag_dir flags) as [dir|].
  - destruct (negb _); [done|].
    destruct (loadInputFilesFromDir fs (flag_options flags)) as [?|inputData];
      [done|].
    unfold createZipFileArchiveWriter, createArchiveWriter.
    destruct (fs_container fs ZipFileArchive _) as [[refuses room]|]; [|done].
    simpl.
    match goal with
    | |- context [compileInputs ?c ?o ?i ?e ?w] =>
        pose proof (kind_compileInputs c o i e w) as Hkind;
        destruct (compileInputs c o i e w) as [error w']
    end.
    simpl in *. by intros [= <-].
  - destruct (collectPathData (flag_args flags) []) as [?|inputData]; [done|].
    unfold createDirectoryArchiveWriter, createArchiveWriter.
    destruct (fs_container fs DirectoryArchive _) as [[refuses room]|]; [|done].
    simpl.
    match goal with
    | |- context [compileInputs ?c ?o ?i ?e ?w] =>
        pose proof (kind_compileInputs c o i e w) as Hkind;
        destruct (compileInputs c o i e w) as [error w']
    end.
    simpl in *. by intros [= <-].
Qed.

End CompilersGrow.

(** ** Runs that end before the loop *)

Section EarlyExits.
Context `{Passes} `{LegacyPng}.

Lemma loadLeafEntries_error prefixPath leaves acc d :
  loadLeafEntries prefixPath leaves acc = inl d →
  dm_level d = Error ∧ dm_source d = None.
Proof.
  revert acc. induction leaves as [|leaf leaves IH]; intros acc; simpl; [done|].
  destruct (isHidden leaf); [apply IH|].
  destruct (extractResourcePathData (file_appendPath prefixPath leaf));
    [by intros [= <-]|apply IH].
Qed.

Lemma loadDirEntries_error fs rootDir dirEntries acc d :
  loadDirEntries fs rootDir dirEntries acc = inl d →
  dm_level d = Error ∧ dm_source d = None.
Proof.
  revert acc.
  induction dirEntries as [|entry rest IH]; intros acc; simpl; [done|].
  destruct (isHidden entry); [apply IH|].
  destruct (negb _); [apply IH|].
  destruct (fs_readdir fs (file_appendPath rootDir entry)) as [?|leaves];
    [by intros [= <-]|].
  destruct (loadLeafEntries _ leaves acc) as [d'|out] eqn:E; [|apply IH].
  intros [= <-]. by eapply loadLeafEntries_error.
Qed.

Lemma collectPathData_error args acc d :
  collectPathData args acc = inl d →
  dm_level d = Error ∧ dm_source d = None.
Proof.
  revert acc. induction args as [|arg args IH]; intros acc; simpl; [done|].
  destruct (extractResourcePathData arg); [by intros [= <-]|apply IH].
Qed.

(** X18.  A run that ends without an archive writer (the flags do not parse, files
    are given together with a resource directory, an input does not
    classify, the directory walk fails, or the container cannot be created)
    exits with status 1 and has reported at most one diagnostic, an error
    that carries no source. *)
Theorem run_without_archive_fails (fs : FileSystem) (args : list string) :
  archive (compile fs args) = None →
  exit_code (compile fs args) = 1
  ∧ (reported (compile fs args) = []
     ∨ ∃ msg, reported (compile fs args) = [mkDiag Error None msg]).
Proof.
  unfold compile. destruct (Flags_parse args) as [flags|];
    [|intros _; split; [done|by left]].
  cbv zeta.
  assert (∀ d, dm_level d = Error ∧ dm_source d = None →
               ∃ msg, [d] = [mkDiag Error None msg]) as Hone.
  { intros [l s m] [Hl Hs]. simpl in *. subst. by exists m. }
  destruct (resDir (flag_options flags)) as [dir|].
  - destruct (negb _); [intros _; split; [done|right; by eexists]|].
    destruct (loadInputFilesFromDir fs (flag_options flags))
      as [d|inputData] eqn:E.
    + intros _. split; [done|]. right. apply Hone.
      unfold loadInputFilesFromDir in E. cbv zeta in E.
      destruct (fs_readdir fs _); [by injection E as <-|].
      by eapply loadDirEntries_error.
    + destruct (createZipFileArchiveWriter fs _);
        [|intros _; split; [done|by left]].
      by destruct (compileInputs _ _ _ _ _).
  - destruct (collectPathData (flag_args flags) []) as [d|inputData] eqn:E.
    + intros _. split; [done|]. right. apply Hone.
      by eapply collectPathData_error.
    + destruct (createDirectoryArchiveWriter fs _);
        [|intros _; split; [done|by left]].
      by destruct (compileInputs _ _ _ _ _).
Qed.

(** X19.  Files named on the command line together with a resource directory are a
    usage error: the run ends with status 1 and the one error "files given
    but --dir specified", before the directory is listed, a container is
    created or a file is read, so on every file system alike. *)
Theorem resource_directory_excludes_files (fs : FileSystem)
    (args : list string) (flags : ParsedFlags) :
  Flags_parse args = Some flags →
  is_Some (flag_dir flags) →
  flag_args flags ≠ [] →
  compile fs args
  = mkResult 1 [mkDiag Error None "files given but --dir specified"] None.
Proof.
  intros Hflags [dir Hdir] Hfiles. unfold compile. rewrite Hflags. cbv zeta.
  change (resDir (flag_options flags)) with (flag_dir flags). rewrite Hdir.
  by rewrite bool_decide_eq_false_2.
Qed.

End EarlyExits.

Lemma mode_selects_container_witness :
  ∃ out,
    archive (compile (H0 := Demo.passes) (H1 := Demo.legacy) Tree.disk
               ["-o"; "out"; "--dir"; "res"]) = Some out
    ∧ aw_kind out = ZipFileArchive.
Proof.
  assert (∃ out,
            archive (compile (H0 := Demo.passes) (H1 := Demo.legacy) Tree.disk
                       ["-o"; "out"; "--dir"; "res"]) = Some out)
    as [out Hout] by (eexists; vm_compute; reflexivity).
  exists out. split; [exact Hout|].
  exact (mode_selects_container (H0 := Demo.passes) (H1 := Demo.legacy)
           Tree.disk ["-o"; "out"; "--dir"; "res"] _ out eq_refl Hout).
Defined.

Lemma run_without_archive_fails_witness :
  exit_code (compile (H0 := Demo.passes) (H1 := Demo.legacy) Demo.disk
               ["-o"; "out"; "strings.xml"]) = 1
  ∧ (reported (compile (H0 := Demo.passes) (H1 := Demo.legacy) Demo.disk
                 ["-o"; "out"; "strings.xml"]) = []
     ∨ ∃ msg,
         reported (compile (H0 := Demo.passes) (H1 := Demo.legacy) Demo.disk
                     ["-o"; "out"; "strings.xml"])
         = [mkDiag Error None msg]).
Proof.
  apply (run_without_archive_fails (H0 := Demo.passes) (H1 := Demo.legacy)
           Demo.disk ["-o"; "out"; "strings.xml"]).
  vm_compute. reflexivity.
Defined.

Lemma resource_directory_excludes_files_witness :
  compile (H0 := Demo.passes) (H1 := Demo.legacy) Tree.disk
    ["-o"; "out"; "--dir"; "res"; "res/values/strings.xml"]
  = mkResult 1 [mkDiag Error None "files given but --dir specified"] None.
Proof.
  eapply (resource_directory_excludes_files (H0 := Demo.passes)
            (H1 := Demo.legacy) Tree.disk).
  - reflexivity.
  - by eexists.
  - discriminate.
Defined.

(** ** When the border removal stays inside the image *)

Section BorderBounds.

Lemma memmove_is_Some {A} dst src n (l : list A) :
  is_Some (memmove dst src n l) ↔
  0 ≤ n ∧ (src + Z.to_nat n ≤ length l)%nat
  ∧ (dst + Z.to_nat n ≤ length l)%nat.
Proof.
  unfold memmove. case_decide; split; done.
Qed.

Lemma memmove_length {A} dst src n (l l' : list A) :
  memmove dst src n l = Some l' → length l' = length l.
Proof. intros (_ & _ & _ & ->)%memmove_Some. apply length_inserts. Qed.

Lemma shiftRows_length rows width hs data data' :
  shiftRows rows width hs data = Some data' → length data' = length data.
Proof.
  revert data. induction hs as [|h hs IH]; intros data Hrun; simpl in Hrun.
  - by injection Hrun as <-.
  - destruct (rows !! h) as [row|]; [|done]. simpl in Hrun.
    destruct (memmove row (row + 4) (width * 4) data) as [data1|] eqn:Hmove;
      [|done]. simpl in Hrun.
    rewrite (IH _ Hrun). by eapply memmove_length.
Qed.

Lemma shiftRows_is_Some rows width hs data :
  is_Some (shiftRows rows width hs data) ↔
  Forall (λ h, ∃ row, rows !! h = Some row ∧ 0 ≤ width * 4
                      ∧ (row + 4 + Z.to_nat (width * 4) ≤ length data)%nat) hs.
Proof.
  revert data. induction hs as [|h hs IH]; intros data; simpl.
  - split; [constructor|by eexists].
  - rewrite Forall_cons. destruct (rows !! h) as [row|]; simpl.
    2:{ split; [by intros [? [=]]|by intros [(? & [=] & _) _]]. }
    destruct (memmove row (row + 4) (width * 4) data) as [data1|] eqn:Hmove;
      simpl.
    + rewrite IH. rewrite (memmove_length _ _ _ _ _ Hmove).
      apply memmove_Some in Hmove as (? & ? & ? & _).
      split; [intros Hrest; split; [exists row; split_and!; (done || lia)|done]
             |by intros [_ ?]].
    + split; [by intros [? [=]]|]. intros [(row' & [= <-] & Hw & Hfit) _].
      assert (is_Some (memmove row (row + 4) (width * 4) data)) as [? Hm].
      { apply memmove_is_Some. lia. }
      congruence.
Qed.


(** X21.  The border removal works in place and frees nothing: the row array and
    the pixel buffer keep their lengths, the two row pointers past the new
    height keep their old values, and every byte that lies in no inner row's
    shifted stretch keeps its value. *)
Theorem border_removal_keeps_the_buffers (image stripped : Image) :
  removeBorder image = Some stripped →
  length (rows stripped) = length (rows image)
  ∧ length (data stripped) = length (data image)
  ∧ (∀ r, (Z.to_nat (height image - 2) ≤ r)%nat →
       rows stripped !! r = rows image !! r)
  ∧ (∀ j, (∀ r row, (1 ≤ r < Z.to_nat (height image - 1))%nat →
             rows image !! r = Some row →
             (j < row ∨ row + 4 * Z.to_nat (width image - 2) ≤ j)%nat) →
       data stripped !! j = data image !! j).
Proof.
  unfold removeBorder. cbv zeta.
  destruct (memmove 0 1 (height image - 2) (rows image)) as [rows'|] eqn:Hrows;
    [|done]. simpl.
  destruct (shiftRows rows' (width image - 2)
              (seq 0 (Z.to_nat (height image - 2))) (data image))
    as [data'|] eqn:Hdata; [|done]. simpl.
  intros [= <-]. simpl.
  pose proof (memmove_Some _ _ _ _ _ Hrows) as (Hh & Hlen & _ & _).
  split; [by eapply memmove_length|]. split; [by eapply shiftRows_length|].
  split.
  - intros r Hr. eapply memmove_lookup_out; [done|]. lia.
  - intros j Hout. eapply shiftRows_untouched; [done|].
    intros h row [_ Hh']%elem_of_seq Hrow. simpl in Hh'.
    rewrite (memmove_lookup_in _ _ _ _ _ _ Hrows) in Hrow by lia.
    replace (1 + (h - 0))%nat with (S h) in Hrow by lia.
    destruct (Hout (S h) row) as [?|?]; [lia|done|by left|right; lia].
Qed.

End BorderBounds.

Lemma border_removal_keeps_the_buffers_witness :
  ∃ stripped,
    removeBorder
      (mkImage 3 3 [0; 12; 24]%nat
         (Demo.bytes_of "a00.a01.a02.a10.a11.a12.a20.a21.a22."))
    = Some stripped
    ∧ length (rows stripped) = 3%nat
    ∧ length (data stripped) = 36%nat.
Proof.
  assert (∃ stripped,
            removeBorder
              (mkImage 3 3 [0; 12; 24]%nat
                 (Demo.bytes_of "a00.a01.a02.a10.a11.a12.a20.a21.a22."))
            = Some stripped) as [stripped Hstrip]
    by (eexists; vm_compute; reflexivity).
  exists stripped. split; [exact Hstrip|].
  destruct (border_removal_keeps_the_buffers _ _ Hstrip) as (-> & -> & _).
  split; reflexivity.
Defined.

(** ** The gradient cache *)

Section GradientFacts.
Import GradientCache.

Lemma power_of_two_test (w : Z) :
  0 < w →
  Z.land w (w - 1) = 0 ↔ w = 2 ^ Z.log2 w.
Proof.
  intros Hw. pose proof (Z.log2_nonneg w) as Hk.
  pose proof (Z.log2_spec w Hw) as [Hlo Hhi].
  replace (Z.succ (Z.log2 w)) with (Z.log2 w + 1) in Hhi by lia.
  split.
  - intros Hland. destruct (decide (w = 2 ^ Z.log2 w)) as [|Hne]; [done|].
    exfalso.
    assert (Z.log2 (w - 1) = Z.log2 w) as Hlog.
    { apply Z.log2_unique; [done|].
      replace (Z.succ (Z.log2 w)) with (Z.log2 w + 1) by lia. lia. }
    assert (Z.testbit (Z.land w (w - 1)) (Z.log2 w) = true) as Hbit.
    { rewrite Z.land_spec, Z.bit_log2 by done.
      rewrite <-Hlog. rewrite Z.bit_log2 by lia. done. }
    rewrite Hland, Z.bits_0 in Hbit. done.
  - remember (Z.log2 w) as k eqn:Ek. clear Ek. intros ->.
    replace (2 ^ k - 1) with (Z.ones k)
      by (rewrite Z.ones_equiv; lia).
    rewrite Z.land_ones by done. apply Z.mod_same.
    apply Z.pow_nonzero; lia.
Qed.

Lemma scanAlpha_S colors i n :
  scanAlpha colors i (S n)
  = colors !! i ≫= λ c,
      if Z.land (Z.shiftr c 24) 255 <? 255 then Some true
      else scanAlpha colors (S i) n.
Proof. reflexivity. Qed.

Lemma scanAlpha_defined colors i n :
  (i + n ≤ length colors)%nat → is_Some (scanAlpha colors i n).
Proof.
  revert i. induction n as [|n IH]; intros i Hlen; [by eexists|].
  rewrite scanAlpha_S.
  destruct (lookup_lt_is_Some_2 colors i) as [c ->]; [lia|].
  cbn [mbind option_bind].
  destruct (_ <? _); [by eexists|]. apply IH. lia.
Qed.

Lemma scanAlpha_true colors i n :
  scanAlpha colors i n = Some true ↔
  ∃ j c, (i ≤ j < i + n)%nat ∧ colors !! j = Some c
         ∧ Z.land (Z.shiftr c 24) 255 < 255
         ∧ ∀ j', (i ≤ j' < j)%nat → is_Some (colors !! j').
Proof.
  revert i. induction n as [|n IH]; intros i.
  - split; [done|]. intros (j & c & ? & _). lia.
  - rewrite scanAlpha_S.
    destruct (colors !! i) as [c|] eqn:Hc; cbn [mbind option_bind].
    + destruct (Z.ltb_spec (Z.land (Z.shiftr c 24) 255) 255) as [Hlt|Hge].
      * split; [|done]. intros _. exists i, c.
        split; [lia|]. split; [done|]. split; [done|]. intros j' Hj'. lia.
      * rewrite IH. split.
        -- intros (j & c' & Hj & Hc' & Hlt & Hbefore).
           exists j, c'. split; [lia|]. split; [done|]. split; [done|].
           intros j' Hj'. destruct (decide (j' = i)) as [->|]; [by eexists|].
           apply Hbefore. lia.
        -- intros (j & c' & Hj & Hc' & Hlt & Hbefore).
           assert (j ≠ i)
             by (intros ->; assert (c' = c) as -> by congruence; lia).
           exists j, c'. split; [lia|]. split; [done|]. split; [done|].
           intros j' Hj'. apply Hbefore. lia.
    + split; [done|]. intros (j & c' & Hj & Hc' & Hlt & Hbefore).
      destruct (decide (j = i)) as [->|]; [congruence|].
      destruct (Hbefore i) as [? ?]; [lia|congruence].
Qed.

(** X22.  For a gradient of at least two colours (and few enough that the width
    fits), the texture is [256 * (count - 1)] texels wide when the device
    supports textures whose size is not a power of two, and otherwise as
    wide as the least power of two that is not smaller; in both cases
    clamped to the largest texture the device supports. *)
Theorem gradient_width_is_next_power_of_two (cache : GradientCache)
    (colors : list Z) (count : Z) :
  2 ≤ count ≤ 2 ^ 22 + 1 →
  (Z.to_nat count ≤ length colors)%nat →
  ∃ info k,
    getGradientInfo cache colors count = Some info
    ∧ 2 ^ (k - 1) < 256 * (count - 1) ≤ 2 ^ k
    ∧ width info
      = min (if mHasNpot cache then 256 * (count - 1) else 2 ^ k)
            (uint32 (mMaxTextureSize cache)).
Proof.
  intros Hcount Hcolors. unfold getGradientInfo.
  rewrite decide_True by (unfold int32_range; lia). cbv zeta.
  set (w := 256 * (count - 1)).
  assert (256 ≤ w ≤ 2 ^ 30) as Hw by (subst w; lia).
  assert (uint32 w = w) as -> by (unfold uint32; apply Z.mod_small; lia).
  assert (uint32 (w - 1) = w - 1) as ->
    by (unfold uint32; apply Z.mod_small; lia).
  destruct (scanAlpha_defined colors 0 (Z.to_nat count)) as [alpha ->]; [lia|].
  pose proof (Z.log2_nonneg w) as Hk.
  pose proof (Z.log2_spec w ltac:(lia)) as [Hlo Hhi].
  replace (Z.succ (Z.log2 w)) with (Z.log2 w + 1) in Hhi by lia.
  pose proof (power_of_two_test w ltac:(lia)) as Hpow.
  destruct (decide (w = 2 ^ Z.log2 w)) as [Heq|Hne].
  - (* already a power of two *)
    assert ((Z.land w (w - 1) =? 0) = true) as ->
      by (apply Z.eqb_eq; tauto).
    rewrite andb_false_r. cbn [mbind option_bind].
    assert (0 < Z.log2 w) as Hpos.
    { apply Z.log2_pos. lia. }
    eexists _, (Z.log2 w). split; [done|]. split.
    + split; [|lia]. rewrite Heq at 2.
      apply Z.pow_lt_mono_r; lia.
    + cbn [width]. destruct (mHasNpot cache); [done|]. by rewrite <-Heq.
  - assert ((Z.land w (w - 1) =? 0) = false) as ->
      by (apply Z.eqb_neq; tauto).
    rewrite andb_true_r.
    assert (w ≠ 2 ^ 30) as Htop.
    { intros E. apply Hne. rewrite E. by rewrite Z.log2_pow2. }
    assert (Z.log2 w < 30) as Hlog.
    { apply Z.log2_lt_pow2; lia. }
    destruct (mHasNpot cache); cbn [negb andb mbind option_bind].
    + eexists _, (Z.log2 w + 1). split; [done|].
      replace (Z.log2 w + 1 - 1) with (Z.log2 w) by lia.
      split; [lia|done].
    + unfold clz. rewrite decide_True by lia. cbn [mbind option_bind].
      rewrite decide_True by lia. cbn [mbind option_bind].
      eexists _, (Z.log2 w + 1). split; [done|].
      replace (Z.log2 w + 1 - 1) with (Z.log2 w) by lia.
      split; [lia|]. cbn [width]. f_equal.
      replace (32 - (31 - Z.log2 w)) with (Z.log2 w + 1) by lia.
      rewrite Z.shiftl_1_l. unfold uint32. apply Z.mod_small.
      split; [apply Z.pow_nonneg; lia|].
      apply Z.pow_lt_mono_r; lia.
Qed.

(** X23.  The texture is marked as needing blending exactly when one of the
    [count] colours has an alpha channel below 255; the scan stops at the
    first such colour and reads nothing after it. *)
Theorem gradient_blends_iff_some_color_is_translucent (cache : GradientCache)
    (colors : list Z) (count : Z) (info : GradientInfo) :
  getGradientInfo cache colors count = Some info →
  hasAlpha info = true ↔
  ∃ i c, (i < Z.to_nat count)%nat ∧ colors !! i = Some c
         ∧ a (splitToBytes c) < 255.
Proof.
  unfold getGradientInfo. case_decide; [|done]. cbv zeta.
  match goal with
  | |- context [mbind _ ?m] => destruct m as [w|]; [|done]
  end.
  cbn [mbind option_bind].
  destruct (scanAlpha colors 0 (Z.to_nat count)) as [alpha|] eqn:Hscan;
    [|done].
  cbn [mbind option_bind]. intros [= <-]. cbn [hasAlpha]. split.
  - intros ->. apply scanAlpha_true in Hscan as (j & c & Hj & Hc & Hlt & _).
    exists j, c. split; [lia|]. by split.
  - intros (i & c & Hi & Hc & Hlt). destruct alpha; [done|].
    exfalso. clear -Hscan Hi Hc Hlt. unfold splitToBytes in Hlt.
    cbn [a] in Hlt.
    assert (∀ n start, scanAlpha colors start n = Some false →
              ∀ j c, (start ≤ j < start + n)%nat → colors !! j = Some c →
                255 ≤ Z.land (Z.shiftr c 24) 255) as Hall.
    { induction n as [|n IH]; intros start Hrun j c' Hj Hc'; [lia|].
      rewrite scanAlpha_S in Hrun.
      destruct (colors !! start) as [c0|] eqn:Hc0; [|done].
      cbn [mbind option_bind] in Hrun.
      destruct (Z.ltb_spec (Z.land (Z.shiftr c0 24) 255) 255); [done|].
      destruct (decide (j = start)) as [->|]; [congruence|].
      apply (IH (S start) Hrun j c'); [lia|done]. }
    pose proof (Hall _ _ Hscan i c ltac:(lia) Hc). lia.
Qed.

(** X24.  Splitting a 32-bit colour loses nothing: every channel is a byte, and
    the colour is its alpha, red, green and blue bytes from the most
    significant to the least. *)
Theorem split_to_bytes_round_trip (inColor : Z) :
  0 ≤ inColor < 2 ^ 32 →
  let c := splitToBytes inColor in
  (0 ≤ r c < 256 ∧ 0 ≤ g c < 256 ∧ 0 ≤ b c < 256 ∧ 0 ≤ a c < 256)
  ∧ inColor = a c * 2 ^ 24 + r c * 2 ^ 16 + g c * 2 ^ 8 + b c.
Proof.
  intros Hc. unfold splitToBytes. cbn [r g b a].
  change 255 with (Z.ones 8). rewrite !Z.land_ones by lia.
  rewrite !Z.shiftr_div_pow2 by lia.
  change (2 ^ 0) with 1. rewrite Z.div_1_r.
  change (2 ^ 8) with 256. change (2 ^ 16) with 65536.
  change (2 ^ 24) with 16777216. change (2 ^ 32) with 4294967296 in Hc.
  split; Z.div_mod_to_equations; lia.
Qed.

End GradientFacts.

Lemma gradient_width_is_next_power_of_two_witness :
  ∃ info k,
    GradientCache.getGradientInfo (GradientCache.mkCache false false 2048)
      [4294901760; 2164195328; 4278190335; 4294967295] 4 = Some info
    ∧ 2 ^ (k - 1) < 256 * (4 - 1) ≤ 2 ^ k
    ∧ GradientCache.width info
      = GradientCache.min (2 ^ k) (uint32 2048).
Proof.
  apply (gradient_width_is_next_power_of_two
           (GradientCache.mkCache false false 2048)
           [4294901760; 2164195328; 4278190335; 4294967295] 4).
  - lia.
  - simpl. lia.
Defined.

Lemma gradient_blends_iff_some_color_is_translucent_witness :
  GradientCache.hasAlpha (GradientCache.mkInfo 1024 true) = true ↔
  ∃ i c, (i < Z.to_nat 4)%nat
         ∧ [4294901760; 2164195328; 4278190335; 4294967295] !! i = Some c
         ∧ GradientCache.a (GradientCache.splitToBytes c) < 255.
Proof.
  apply (gradient_blends_iff_some_color_is_translucent
           (GradientCache.mkCache false false 2048)
           [4294901760; 2164195328; 4278190335; 4294967295] 4
           (GradientCache.mkInfo 1024 true)).
  vm_compute. reflexivity.
Defined.

Lemma split_to_bytes_round_trip_witness :
  let c := GradientCache.splitToBytes 2164211744 in
  (0 ≤ GradientCache.r c < 256 ∧ 0 ≤ GradientCache.g c < 256
   ∧ 0 ≤ GradientCache.b c < 256 ∧ 0 ≤ GradientCache.a c < 256)
  ∧ 2164211744
    = GradientCache.a c * 2 ^ 24 + GradientCache.r c * 2 ^ 16
      + GradientCache.g c * 2 ^ 8 + GradientCache.b c.
Proof. apply (split_to_bytes_round_trip 2164211744). lia. Defined.

(** ** The packages of a compiled table *)

Section PackageIds.
Context `{Passes} `{LegacyPng}.

(** X25.  After the identifier assignment of the values compiler every package
    of the table has an identifier: a package that got one while parsing
    keeps it, every other one gets the context's.  Names and contents of the
    packages are left as they were, in the same order, the string pool is
    untouched, and assigning again changes nothing. *)
Theorem every_serialized_package_has_an_id (context : CompileContext)
    (table : ResourceTable) :
  let assigned := assignPackageIds context table in
  stringPool assigned = stringPool table
  ∧ Forall (λ pkg, is_Some (pkg_id pkg)) (packages assigned)
  ∧ Forall2 (λ pkg pkg',
               pkg_name pkg' = pkg_name pkg
               ∧ pkg_types pkg' = pkg_types pkg
               ∧ pkg_id pkg' = Some (default (getPackageId context)
                                             (pkg_id pkg)))
      (packages table) (packages assigned)
  ∧ assignPackageIds context assigned = assigned.
Proof.
  unfold assignPackageIds. simpl. split; [done|].
  induction (packages table) as [|pkg pkgs IH]; [by repeat constructor|].
  destruct IH as (Hall & Hsame & Hidem).
  rewrite !fmap_cons. split_and!.
  - constructor; [|done]. by destruct pkg as [n [i|] t]; simpl.
  - constructor; [|done]. by destruct pkg as [n [i|] t]; simpl.
  - f_equal. injection Hidem as Hidem. rewrite Hidem.
    by destruct pkg as [n [i|] t].
Qed.

End PackageIds.
